(** * artkit.model.util._retry: retrying with exponential backoff

    A shallow embedding of [src/artkit/model/util/_retry.py] and the
    properties of its two decorators:

    - [retry_function_with_exponential_backoff] (explicit policy), whose
      closure [exponential_delay] runs the attempt loop;
    - [retry_with_exponential_backoff] (policy read from the receiver), whose
      closure [_wrapper] delegates to the former.

    Python floats are IEEE 754 binary64 numbers; they are modelled with the
    executable specification [SpecFloat] of the Standard Library.  The loop is
    written over the interface of the arithmetic it uses; what depends on
    the arithmetic is proved for binary64. *)

From Stdlib Require Import ZArith Lia Bool.
From Stdlib Require Import String.
From Stdlib Require Import Floats.SpecFloat.
From stdpp Require Import base option list gmap.

Local Open Scope Z_scope.

(** ** Arithmetic of the delay computation

    The only arithmetic in the source is
    [initial_delay *= exponential_base * (1 + jitter * random.random())]:
    a product of a [bool] with a float, the sum of the [int] 1 with a float,
    and two float products. *)

Class Number (F : Type) : Type := {
  of_int : Z -> F;            (* implicit int -> float conversion *)
  of_bool : bool -> F;        (* implicit bool -> float conversion *)
  mul : F -> F -> F;
  add : F -> F -> F
}.

(** *** binary64, the arithmetic of Python's [float] *)

Module Binary64.

Definition prec : Z := 53.
Definition emax : Z := 1024.

Definition float : Type := spec_float.

Definition fmul : float -> float -> float := SFmul prec emax.
Definition fadd : float -> float -> float := SFadd prec emax.
Definition fleb : float -> float -> bool := SFleb.
Definition fltb : float -> float -> bool := SFltb.

(** [float(z)] for an integer that is exactly representable, as 0, 1 and
    the small integers used below are; larger ones are rounded to nearest
    even, as CPython does. *)
Definition float_of_Z (z : Z) : float := binary_normalize prec emax z 0 false.

Definition float_of_bool (b : bool) : float :=
  float_of_Z (if b then 1 else 0).

(** [m / 2^k] as a float, for writing literals such as 0.5. *)
Definition float_of_dyadic (m : Z) (k : Z) : float :=
  binary_normalize prec emax m (- k) false.

Definition valid (x : float) : bool := valid_binary prec emax x.

(** What [random.random()] may return: a finite float [0.0 <= x < 1.0]. *)
Definition unit_interval (x : float) : bool :=
  valid x && fleb (float_of_Z 0) x && fltb x (float_of_Z 1).

(** Neither an infinity nor a NaN. *)
Definition is_finite (x : float) : bool :=
  match x with
  | S754_zero _ | S754_finite _ _ _ => true
  | _ => false
  end.

(** The delays for which [await asyncio.sleep(x)] returns: a sleep for
    [+inf] never does. *)
Definition all_finite (xs : list float) : bool := forallb is_finite xs.

(** A positive normal number: 53 significant bits and an exponent in
    range. *)
Definition normal (x : float) : bool :=
  match x with
  | S754_finite false m e =>
      (Zpos (digits2_pos m) =? 53) && (-1074 <=? e) && (e <=? 971)
  | _ => false
  end.

(** [math.ldexp(x, k)], the float [x * 2**k]. *)
Definition ldexp (x : float) (k : Z) : float := SFldexp prec emax x k.

End Binary64.

#[export] Instance binary64_number : Number Binary64.float := {|
  of_int := Binary64.float_of_Z;
  of_bool := Binary64.float_of_bool;
  mul := Binary64.fmul;
  add := Binary64.fadd
|}.

(** ** Exceptions

    An exception object has a class, a message and the [__cause__] set by
    [raise ... from ...]. *)

Inductive exc_class : Type :=
| RateLimitException
| UnboundLocalError
| AttributeError
| UserError (name : string) (derives_RateLimitException : bool).

#[warnings="-register-all"]
Inductive exception : Type :=
| Exc (cls : exc_class) (message : string) (cause : option exception).

Definition exc_cls (e : exception) : exc_class :=
  let '(Exc c _ _) := e in c.
Definition exc_message (e : exception) : string :=
  let '(Exc _ m _) := e in m.
Definition exc_cause (e : exception) : option exception :=
  let '(Exc _ _ c) := e in c.

(** [issubclass(c, RateLimitException)] *)
Definition issubclass_RateLimitException (c : exc_class) : bool :=
  match c with
  | RateLimitException => true
  | UserError _ derives => derives
  | _ => false
  end.

(** Whether the clause [except RateLimitException as e] catches [e]. *)
Definition isinstance_RateLimitException (e : exception) : bool :=
  issubclass_RateLimitException (exc_cls e).

(** The outcome of running a piece of Python code. *)
Inductive result (T : Type) : Type :=
| Return (v : T)
| Raise (e : exception).
Arguments Return {T} v.
Arguments Raise {T} e.

(** [range(lo, hi)] *)
Definition range (lo hi : Z) : list Z :=
  map (fun i : nat => lo + Z.of_nat i) (seq 0 (Z.to_nat (hi - lo))).

(** ** The world the retrier runs in

    Receivers are objects on the heap, addressed by reference; the wrapped
    coroutine may read and mutate them, as well as whatever remote state [R]
    it talks to.  The retrier itself draws from the random source, emits log
    records and sleeps; these actions are recorded, in order, in a trace,
    together with each [await func(...)].  One call is followed on its own:
    no other task is scheduled while it sleeps, so the heap changes only
    when the wrapped coroutine runs. *)

Definition ref : Type := positive.

Section Retrier.

Context {F : Type} `{Number F}.
Context {R A T : Type}.

(** The four policy attributes of a connector. *)
Record Connector : Type := mkConnector {
  initial_delay : F;
  max_retries : Z;
  exponential_base : F;
  jitter : bool
}.

Record Heap : Type := mkHeap {
  objects : gmap ref Connector;
  remote : R
}.

Inductive event : Type :=
| EvAwait                                   (* await func(self, *args, **kwargs) *)
| EvWarning (num_retries max_retries : Z) (delay : F)      (* log.warning(...) *)
| EvSleep (delay : F).                      (* await asyncio.sleep(delay) *)

Record World : Type := mkWorld {
  heap : Heap;
  random_source : nat -> F;     (* the values random.random() will return *)
  drawn : nat;                  (* how many of them have been consumed *)
  trace : list event
}.

(** Computations: a state monad over [World] whose results may be raised
    exceptions. *)
Definition M (X : Type) : Type := World -> result X * World.

Definition ret {X} (x : X) : M X := fun w => (Return x, w).
Definition raise {X} (e : exception) : M X := fun w => (Raise e, w).
Definition bind {X Y} (m : M X) (k : X -> M Y) : M Y :=
  fun w => match m w with
           | (Return x, w') => k x w'
           | (Raise e, w') => (Raise e, w')
           end.
(** [try: m  except RateLimitException as e: handler(e)]; any other
    exception passes through. *)
Definition try_except_RateLimitException {X}
    (m : M X) (handler : exception -> M X) : M X :=
  fun w => match m w with
           | (Return x, w') => (Return x, w')
           | (Raise e, w') =>
               if isinstance_RateLimitException e then handler e w'
               else (Raise e, w')
           end.

Definition emit (ev : event) : M unit :=
  fun w => (Return tt,
            mkWorld (heap w) (random_source w) (drawn w) (trace w ++ [ev])).

(** [random.random()] *)
Definition random : M F :=
  fun w => (Return (random_source w (drawn w)),
            mkWorld (heap w) (random_source w) (S (drawn w)) (trace w)).

(** [log.warning("Rate limit exceeded: ... (%s/%s). Wait for %.2f seconds.", ...)] *)
Definition log_warning (num_retries max_retries : Z) (delay : F) : M unit :=
  emit (EvWarning num_retries max_retries delay).

(** [await asyncio.sleep(delay)].  The sleep is recorded and the call goes
    on.  A real sleep for [+inf] never returns: a run of this model is a run
    of the program as far as its first sleep for a delay that is not finite,
    and the whole of it when the delays slept are all finite
    ([Binary64.all_finite]), which section [Float64Runs] assumes. *)
Definition sleep (delay : F) : M unit := emit (EvSleep delay).

(** An asynchronous method [async def f(self, /, *args, **kwargs)]. *)
Definition Coroutine : Type := ref -> A -> M T.

(** The body of a method defined by the user of the decorators: it acts on
    the heap only. *)
Definition Method : Type := ref -> A -> Heap -> result T * Heap.

Definition run_method (body : Method) : Coroutine :=
  fun self args w =>
    let '(r, h) := body self args (heap w) in
    (r, mkWorld h (random_source w) (drawn w) (trace w)).

(** [await func(self, *args, **kwargs)] *)
Definition await (func : Coroutine) (self : ref) (args : A) : M T :=
  bind (emit EvAwait) (fun _ => func self args).

End Retrier.

Arguments Connector F : clear implicits.
Arguments Heap F R : clear implicits.
Arguments event F : clear implicits.
Arguments World F R : clear implicits.
Arguments M F R X : clear implicits.
Arguments Coroutine F R A T : clear implicits.
Arguments Method F R A T : clear implicits.

Declare Scope py_scope.
Delimit Scope py_scope with py.
Notation "x <- m ;; k" := (bind m (fun x => k))
  (at level 100, m at next level, right associativity) : py_scope.
Notation "m ;; k" := (bind m (fun _ => k))
  (at level 100, right associativity) : py_scope.

(** ** The decorators *)

Section Decorators.

Context {F : Type} `{Number F}.
Context {R A T : Type}.

Local Abbreviation Coroutine := (Coroutine F R A T).
Local Abbreviation Method := (Method F R A T).
Local Abbreviation M := (M F R).

(** [initial_delay * (exponential_base * (1 + jitter * r))], the right-hand
    side of the augmented assignment on line 85, [r] being the value of
    [random.random()]. *)
Definition increment_delay
    (initial_delay exponential_base : F) (jitter : bool) (r : F) : F :=
  mul initial_delay (mul exponential_base (add (of_int 1) (mul (of_bool jitter) r))).

(** [raise RateLimitException("Rate limit error after max retries.") from
    last_exception] (lines 100-102).  The local [last_exception] is bound
    only by the handler; reading it unbound raises [UnboundLocalError]. *)
Definition raise_exhausted (last_exception : option exception) : M T :=
  match last_exception with
  | Some e =>
      raise (Exc RateLimitException "Rate limit error after max retries." (Some e))
  | None =>
      raise (Exc UnboundLocalError
               "cannot access local variable 'last_exception' where it is not associated with a value"
               None)
  end.

(** The [for num_retries in ...] loop of [exponential_delay] (lines 78-98)
    over the remaining values of [num_retries], followed by the final
    [raise]. *)
Fixpoint attempt_loop (func : Coroutine) (max_retries : Z)
    (exponential_base : F) (jitter : bool) (self : ref) (args : A)
    (nums : list Z) (initial_delay : F) (last_exception : option exception)
    : M T :=
  match nums with
  | [] => raise_exhausted last_exception
  | num_retries :: rest =>
      try_except_RateLimitException
        (await func self args)
        (fun e =>
           (r <- random ;;
            let initial_delay := increment_delay initial_delay exponential_base jitter r in
            log_warning num_retries max_retries initial_delay ;;
            sleep initial_delay ;;
            attempt_loop func max_retries exponential_base jitter self args
              rest initial_delay (Some e))%py)
  end.

(** The closure [exponential_delay] returned by
    [retry_function_with_exponential_backoff(func, max_retries, delay,
    exponential_base, jitter)]. *)
Definition exponential_delay (func : Coroutine) (max_retries : Z) (delay : F)
    (exponential_base : F) (jitter : bool) : Coroutine :=
  fun self args =>
    attempt_loop func max_retries exponential_base jitter self args
      (range 1 (max_retries + 1)) delay None.

(** [self.initial_delay], [self.max_retries], [self.exponential_base] and
    [self.jitter]: attribute reads on the receiver.  A reference to no
    object has no attributes. *)
Definition getattr_policy (self : ref) : M (Connector F) :=
  fun w => match objects (heap w) !! self with
           | Some c => (Return c, w)
           | None => (Raise (Exc AttributeError "no such connector" None), w)
           end.

(** The closure [_wrapper] returned by [retry_with_exponential_backoff(func)]
    (lines 120-147). *)
Definition _wrapper (func : Coroutine) : Coroutine :=
  fun self args =>
    (c <- getattr_policy self ;;
     let delay := initial_delay c in
     let max_retries := max_retries c in
     let exponential_base := exponential_base c in
     let jitter := jitter c in
     exponential_delay func max_retries delay exponential_base jitter self args)%py.

(** *** Function objects

    The decorators take and return function objects.  What matters of one
    is its code object ([__code__]), which every closure created from the
    same [def] shares, and what calling it does. *)

Inductive code : Type :=
| code_def (qualname : string)
| code_exponential_delay
| code__wrapper.

Definition code_is (c1 c2 : code) : bool :=
  match c1, c2 with
  | code_def n1, code_def n2 => String.eqb n1 n2
  | code_exponential_delay, code_exponential_delay => true
  | code__wrapper, code__wrapper => true
  | _, _ => false
  end.

Inductive function : Type :=
| Def (qualname : string) (body : Method)
| Closure_exponential_delay (func : function) (max_retries : Z) (delay : F)
    (exponential_base : F) (jitter : bool)
| Closure__wrapper (func : function).

Definition code_of (f : function) : code :=
  match f with
  | Def qualname _ => code_def qualname
  | Closure_exponential_delay _ _ _ _ _ => code_exponential_delay
  | Closure__wrapper _ => code__wrapper
  end.

Fixpoint call (f : function) : Coroutine :=
  match f with
  | Def _ body => run_method body
  | Closure_exponential_delay func max_retries delay exponential_base jitter =>
      exponential_delay (call func) max_retries delay exponential_base jitter
  | Closure__wrapper func => _wrapper (call func)
  end.

Definition retry_function_with_exponential_backoff (func : function)
    (max_retries : Z) (delay : F) (exponential_base : F) (jitter : bool)
    : function :=
  Closure_exponential_delay func max_retries delay exponential_base jitter.

Definition retry_with_exponential_backoff (func : function) : function :=
  if code_is (code_of func) code__wrapper then func
  else Closure__wrapper func.

(** *** Observations on traces and on the wrapped method *)

Definition sleeps (tr : list (event F)) : list F :=
  omap (fun ev => match ev with EvSleep d => Some d | _ => None end) tr.

Definition awaits (tr : list (event F)) : nat :=
  List.length (List.filter (fun ev => match ev with EvAwait => true | _ => false end) tr).

(** The heap after [i] successive invocations of [body], and the outcome
    of the next one. *)
Fixpoint heap_after (body : Method) (self : ref) (args : A) (i : nat)
    (h : Heap F R) : Heap F R :=
  match i with
  | O => h
  | S i' => heap_after body self args i' (snd (body self args h))
  end.

Definition outcome (body : Method) (self : ref) (args : A) (i : nat)
    (h : Heap F R) : result T :=
  fst (body self args (heap_after body self args i h)).

(** *** The loop, round by round *)

(** The delays slept after [k] consecutive rate-limit failures, starting
    from delay [d] and from position [c] of the random source. *)
Fixpoint delays (exponential_base : F) (jitter : bool) (rand : nat -> F)
    (c : nat) (d : F) (k : nat) : list F :=
  match k with
  | O => []
  | S k' =>
      let d' := increment_delay d exponential_base jitter (rand c) in
      d' :: delays exponential_base jitter rand (S c) d' k'
  end.

(** The local [initial_delay] and the world after the rounds [pre] of the
    loop have all ended in the handler. *)
Fixpoint failed_rounds (body : Method) (max_retries : Z)
    (exponential_base : F) (jitter : bool) (self : ref) (args : A)
    (pre : list Z) (d : F) (w : World F R) : F * World F R :=
  match pre with
  | [] => (d, w)
  | num_retries :: pre' =>
      let d' := increment_delay d exponential_base jitter
                  (random_source w (drawn w)) in
      failed_rounds body max_retries exponential_base jitter self args pre' d'
        (mkWorld (snd (body self args (heap w))) (random_source w)
           (S (drawn w))
           (trace w ++ [EvAwait; EvWarning num_retries max_retries d'; EvSleep d']))
  end.

(** The local [last_exception] after [k] such rounds. *)
Definition last_after (body : Method) (self : ref) (args : A) (k : nat)
    (h : Heap F R) (last : option exception) : option exception :=
  match k with
  | O => last
  | S k' =>
      match outcome body self args k' h with
      | Raise e => Some e
      | Return _ => None
      end
  end.

(** The call raised an exception that [except RateLimitException] catches. *)
Definition rate_limited (r : result T) : Prop :=
  exists e, r = Raise e /\ isinstance_RateLimitException e = true.

(** The error raised when the loop runs out of rounds. *)
Definition retry_exhausted (e : exception) : exception :=
  Exc RateLimitException "Rate limit error after max retries." (Some e).

(** [self.initial_delay = ...] and the like: code outside the decorators
    reconfigures the receiver between two calls. *)
Definition setattr_policy (self : ref) (c : Connector F) (w : World F R)
    : World F R :=
  mkWorld (mkHeap (<[self := c]> (objects (heap w))) (remote (heap w)))
    (random_source w) (drawn w) (trace w).

(** The delays slept during the call [f(self, *args)] started in world [w]:
    the sleeps its trace has beyond those already in [w]. *)
Definition call_delays (f : function) (self : ref) (args : A) (w : World F R)
    : list F :=
  drop (length (sleeps (trace w))) (sleeps (trace (snd (call f self args w)))).

(** The events one call [f(self, *args)] started in world [w] adds to the
    trace. *)
Definition call_events (f : function) (self : ref) (args : A) (w : World F R)
    : list (event F) :=
  drop (length (trace w)) (trace (snd (call f self args w))).

(** The events of consecutive rounds that end in the handler: the call, the
    log record with the round's number and its delay, the sleep for that
    delay. *)
Fixpoint rounds_events (max_retries : Z) (nums : list Z) (ds : list F)
    : list (event F) :=
  match nums, ds with
  | num_retries :: nums', d :: ds' =>
      [EvAwait; EvWarning num_retries max_retries d; EvSleep d]
        ++ rounds_events max_retries nums' ds'
  | _, _ => []
  end.

End Decorators.

(** ** Test doubles and sample inputs *)

(** A method whose successive invocations have the outcomes listed in
    [script], and [default] once the script is used up; the remote state
    counts the invocations. *)
Definition scripted {F A T : Type} (script : list (result T))
    (default : result T) : Method F nat A T :=
  fun self args h =>
    (nth (remote h) script default, mkHeap (objects h) (S (remote h))).

(** A world with one connector, at reference 1, and nothing done yet. *)
Definition fresh_world {F : Type} (c : Connector F) (rand : nat -> F)
    : World F nat :=
  mkWorld (mkHeap {[ 1%positive := c ]} O) rand O [].

(** The [k]-th failure reported by the remote API. *)
Definition rate_limit (k : Z) : exception :=
  Exc RateLimitException
    (match k with 1 => "429 (1)" | 2 => "429 (2)" | 3 => "429 (3)" | _ => "429" end)
    None.

(** An operation that is rate limited every time it is invoked. *)
Definition always_limited {F : Type} : Method F nat unit string :=
  scripted [Raise (rate_limit 1); Raise (rate_limit 2); Raise (rate_limit 3)]
    (Raise (rate_limit 0)).

Definition value_error : exception :=
  Exc (UserError "ValueError" false) "bad prompt" None.

(** An operation that is rate limited once and then answers. *)
Definition succeeds_second {F : Type} : Method F nat unit string :=
  scripted [Raise (rate_limit 1); Return "answer"%string] (Return "late"%string).

(** An operation that is rate limited once and then rejects its input. *)
Definition fails_second {F : Type} : Method F nat unit string :=
  scripted [Raise (rate_limit 1); Raise value_error] (Return "late"%string).

(** An operation that is rate limited every time and, while it runs, raises
    its receiver's [max_retries] to 100. *)
Definition raises_its_budget {F : Type} : Method F nat unit string :=
  fun self args h =>
    (Raise (rate_limit 0),
     mkHeap
       (match objects h !! self with
        | Some c =>
            <[self := mkConnector (initial_delay c) 100 (exponential_base c)
                        (jitter c)]> (objects h)
        | None => objects h
        end)
       (S (remote h))).

Module Sample64.
Import Binary64.

Definition half : float := float_of_dyadic 1 1.

(** [max_retries=3, initial_delay=1.0, exponential_base=2.0, jitter=False] *)
Definition policy : Connector float :=
  mkConnector (float_of_Z 1) 3 (float_of_Z 2) false.

Definition world : World float nat := fresh_world policy (fun _ => half).

End Sample64.

(** ** Shapes of delay sequences *)


(** ** Rounding to nearest, ties to even

    What binary64 multiplication and addition compute, written on
    integers: the statements about [SFmul] and [SFadd] below relate the
    shift-and-round of [SpecFloat] to these. *)

(** [M / 2^n] rounded to the nearest integer, ties to even. *)
Definition rne (M n : Z) : Z :=
  let q := M / 2 ^ n in
  let rem := M mod 2 ^ n in
  if 2 * rem <? 2 ^ n then q
  else if 2 ^ n <? 2 * rem then q + 1
  else if Z.even q then q else q + 1.

(** The record [rec] is [M] shifted right by [n] bits: its mantissa is the
    quotient, and its round and sticky bits place the remainder against
    half of [2^n]. *)
Definition located (M n : Z) (rec : shr_record) : Prop :=
  exists rem,
    M = shr_m rec * 2 ^ n + rem /\ 0 <= rem < 2 ^ n /\ 0 <= shr_m rec /\
    match shr_r rec, shr_s rec with
    | false, false => rem = 0
    | false, true => 0 < rem /\ 2 * rem < 2 ^ n
    | true, false => 2 * rem = 2 ^ n
    | true, true => 2 ^ n < 2 * rem
    end.

(** The float of mantissa [m] and exponent [e], or the infinity when the
    exponent is out of range. *)
Definition overflow_check (s : bool) (m e : Z) : Binary64.float :=
  if e <=? Binary64.emax - Binary64.prec
  then S754_finite s (Z.to_pos m) e else S754_infinity s.

(** The same after the rounded mantissa [m1], of 53 bits or equal to
    [2^53], has been renormalised. *)
Definition finish (s : bool) (m1 e : Z) : Binary64.float :=
  if m1 =? 2 ^ 53 then overflow_check s (2 ^ 52) (e + 1)
  else overflow_check s m1 e.

(** The exponent of a finite float. *)
Definition exponent (x : Binary64.float) : Z :=
  match x with
  | S754_finite _ _ e => e
  | _ => 0
  end.

(** ** The attempt loop, round by round *)

Section LoopFacts.

Context {F : Type} `{Number F}.
Context {R A T : Type}.

Local Abbreviation Method := (Method F R A T).
Local Abbreviation World := (World F R).

Variable body : Method.
Variable max_retries : Z.
Variable exponential_base : F.
Variable jitter : bool.
Variable self : ref.
Variable args : A.

Lemma sleeps_app (l1 l2 : list (event F)) :
  sleeps (l1 ++ l2) = sleeps l1 ++ sleeps l2.
Proof. unfold sleeps. apply omap_app. Qed.

Lemma awaits_app (l1 l2 : list (event F)) :
  awaits (l1 ++ l2) = (awaits l1 + awaits l2)%nat.
Proof.
  unfold awaits. rewrite List.filter_app. apply List.length_app.
Qed.

Lemma await_run_method (w : World) :
  await (run_method body) self args w =
  (fst (body self args (heap w)),
   mkWorld (snd (body self args (heap w))) (random_source w) (drawn w)
     (trace w ++ [EvAwait])).
Proof.
  unfold await, bind, emit, run_method. simpl.
  destruct (body self args (heap w)) as [r h]. reflexivity.
Qed.

(** One round that ends in the handler. *)
Lemma attempt_loop_failure num_retries rest d last w e :
  fst (body self args (heap w)) = Raise e ->
  isinstance_RateLimitException e = true ->
  attempt_loop (run_method body) max_retries exponential_base jitter self args
    (num_retries :: rest) d last w =
  attempt_loop (run_method body) max_retries exponential_base jitter self args
    rest (fst (failed_rounds body max_retries exponential_base jitter self args [num_retries] d w)) (Some e)
    (snd (failed_rounds body max_retries exponential_base jitter self args [num_retries] d w)).
Proof.
  intros Hout Hcatch. simpl.
  unfold try_except_RateLimitException at 1.
  rewrite await_run_method, Hout, Hcatch.
  unfold bind, random, log_warning, sleep, emit. simpl.
  rewrite <- !app_assoc. reflexivity.
Qed.

(** One round in which the call returns. *)
Lemma attempt_loop_return num_retries rest d last w v :
  fst (body self args (heap w)) = Return v ->
  attempt_loop (run_method body) max_retries exponential_base jitter self args
    (num_retries :: rest) d last w =
  (Return v,
   mkWorld (snd (body self args (heap w))) (random_source w) (drawn w)
     (trace w ++ [EvAwait])).
Proof.
  intros Hout. simpl. unfold try_except_RateLimitException.
  rewrite await_run_method, Hout. reflexivity.
Qed.

(** One round in which the call raises something the handler does not
    catch. *)
Lemma attempt_loop_propagate num_retries rest d last w e :
  fst (body self args (heap w)) = Raise e ->
  isinstance_RateLimitException e = false ->
  attempt_loop (run_method body) max_retries exponential_base jitter self args
    (num_retries :: rest) d last w =
  (Raise e,
   mkWorld (snd (body self args (heap w))) (random_source w) (drawn w)
     (trace w ++ [EvAwait])).
Proof.
  intros Hout Hcatch. simpl. unfold try_except_RateLimitException.
  rewrite await_run_method, Hout, Hcatch. reflexivity.
Qed.

(** A prefix of rounds that all end in the handler. *)
Lemma attempt_loop_failures pre post d last w :
  (forall i, (i < length pre)%nat ->
             rate_limited (outcome body self args i (heap w))) ->
  attempt_loop (run_method body) max_retries exponential_base jitter self args
    (pre ++ post) d last w =
  attempt_loop (run_method body) max_retries exponential_base jitter self args
    post (fst (failed_rounds body max_retries exponential_base jitter self args pre d w))
    (last_after body self args (length pre) (heap w) last)
    (snd (failed_rounds body max_retries exponential_base jitter self args pre d w)).
Proof.
  revert d last w.
  induction pre as [|n pre IH]; intros d last w Hfail.
  - reflexivity.
  - destruct (Hfail O) as (e & He & Hcatch); [simpl; lia|].
    unfold outcome in He. simpl in He.
    change ((n :: pre) ++ post) with (n :: (pre ++ post)).
    rewrite (attempt_loop_failure n (pre ++ post) d last w e He Hcatch).
    rewrite IH.
    + f_equal. simpl.
      destruct pre as [|n' pre']; simpl.
      * unfold outcome. simpl. rewrite He. reflexivity.
      * reflexivity.
    + intros i Hi. simpl.
      apply (Hfail (S i)). simpl. lia.
Qed.

(** What [failed_rounds] leaves behind. *)
Lemma failed_rounds_heap pre d w :
  heap (snd (failed_rounds body max_retries exponential_base jitter self args pre d w)) =
  heap_after body self args (length pre) (heap w).
Proof.
  revert d w. induction pre as [|n pre IH]; intros d w; simpl.
  - reflexivity.
  - rewrite IH. reflexivity.
Qed.

Lemma failed_rounds_random pre d w :
  random_source (snd (failed_rounds body max_retries exponential_base jitter self args pre d w)) = random_source w /\
  drawn (snd (failed_rounds body max_retries exponential_base jitter self args pre d w)) = (drawn w + length pre)%nat.
Proof.
  revert d w. induction pre as [|n pre IH]; intros d w; simpl.
  - split; [reflexivity | lia].
  - destruct (IH (increment_delay d exponential_base jitter
                    (random_source w (drawn w)))
                (mkWorld (snd (body self args (heap w))) (random_source w)
                   (S (drawn w))
                   (trace w ++
                    [EvAwait;
                     EvWarning n max_retries
                       (increment_delay d exponential_base jitter
                          (random_source w (drawn w)));
                     EvSleep
                       (increment_delay d exponential_base jitter
                          (random_source w (drawn w)))]))) as [IH1 IH2].
    rewrite IH1, IH2. simpl. split; [reflexivity | lia].
Qed.

Lemma failed_rounds_trace pre d w :
  exists tr,
    trace (snd (failed_rounds body max_retries exponential_base jitter self args pre d w)) = trace w ++ tr /\
    awaits tr = length pre /\
    sleeps tr = delays exponential_base jitter (random_source w) (drawn w) d (length pre).
Proof.
  revert d w. induction pre as [|n pre IH]; intros d w; simpl.
  - exists []. rewrite app_nil_r. auto.
  - match goal with
    | |- context [failed_rounds body max_retries exponential_base jitter self args pre ?d' ?w'] =>
        destruct (IH d' w') as (tr & Htr & Haw & Hsl)
    end.
    simpl in *.
    eexists. split; [rewrite Htr, <- app_assoc; reflexivity|].
    split.
    + rewrite awaits_app, Haw. reflexivity.
    + rewrite sleeps_app, Hsl. reflexivity.
Qed.

Lemma length_delays rand c d k : length (delays exponential_base jitter rand c d k) = k.
Proof.
  revert c d. induction k as [|k IH]; intros c d; simpl; [|rewrite IH]; reflexivity.
Qed.

End LoopFacts.

(** ** The wrapper with an explicit policy *)

Section ExplicitPolicy.

Context {F : Type} `{Number F}.
Context {R A T : Type}.

Local Abbreviation Method := (Method F R A T).
Local Abbreviation World := (World F R).

Implicit Types (body : Method) (w : World) (d base : F) (N : Z).

Lemma length_range lo hi : length (range lo hi) = Z.to_nat (hi - lo).
Proof. unfold range. rewrite length_map, length_seq. reflexivity. Qed.

Lemma length_range_1 N : length (range 1 (N + 1)) = Z.to_nat N.
Proof. rewrite length_range. f_equal. lia. Qed.

(** The loop reaches round [j] (counted from 0) when all earlier calls
    were rate limited; this is the state it reaches it in. *)
Lemma attempt_loop_reaches body N base jitter self args nums j d last w :
  (j < length nums)%nat ->
  (forall i, (i < j)%nat -> rate_limited (outcome body self args i (heap w))) ->
  exists num_retries rest dj wj tr,
    attempt_loop (run_method body) N base jitter self args nums d last w =
    attempt_loop (run_method body) N base jitter self args
      (num_retries :: rest) dj (last_after body self args j (heap w) last) wj /\
    heap wj = heap_after body self args j (heap w) /\
    random_source wj = random_source w /\
    drawn wj = (drawn w + j)%nat /\
    trace wj = trace w ++ tr /\
    awaits tr = j /\
    sleeps tr = delays base jitter (random_source w) (drawn w) d j.
Proof.
  intros Hj Hfail.
  assert (Hlen : length (take j nums) = j) by (rewrite length_take; lia).
  destruct (drop j nums) as [|n rest] eqn:Hdrop.
  { apply (f_equal length) in Hdrop. rewrite length_drop in Hdrop.
    simpl in Hdrop. lia. }
  destruct (failed_rounds_trace body N base jitter self args (take j nums) d w)
    as (tr & Htr & Haw & Hsl).
  destruct (failed_rounds_random body N base jitter self args (take j nums) d w)
    as [Hrs Hdr].
  exists n, rest,
    (fst (failed_rounds body N base jitter self args (take j nums) d w)),
    (snd (failed_rounds body N base jitter self args (take j nums) d w)), tr.
  rewrite Hlen in *.
  repeat split; try assumption.
  - rewrite <- (take_drop j nums) at 1. rewrite Hdrop.
    rewrite attempt_loop_failures; rewrite Hlen; [reflexivity | assumption].
  - rewrite failed_rounds_heap, Hlen. reflexivity.
Qed.

(** The loop runs out of rounds when every call was rate limited. *)
Lemma attempt_loop_exhausts body N base jitter self args nums d last w :
  (forall i, (i < length nums)%nat ->
             rate_limited (outcome body self args i (heap w))) ->
  exists wn tr,
    attempt_loop (run_method body) N base jitter self args nums d last w =
    raise_exhausted (last_after body self args (length nums) (heap w) last) wn /\
    heap wn = heap_after body self args (length nums) (heap w) /\
    trace wn = trace w ++ tr /\
    awaits tr = length nums /\
    sleeps tr = delays base jitter (random_source w) (drawn w) d (length nums).
Proof.
  intros Hfail.
  destruct (failed_rounds_trace body N base jitter self args nums d w)
    as (tr & Htr & Haw & Hsl).
  exists (snd (failed_rounds body N base jitter self args nums d w)), tr.
  repeat split; try assumption.
  - rewrite <- (app_nil_r nums) at 1.
    rewrite attempt_loop_failures by assumption. reflexivity.
  - apply failed_rounds_heap.
Qed.

Lemma heap_after_S body self args j (h : Heap F R) :
  heap_after body self args (S j) h =
  snd (body self args (heap_after body self args j h)).
Proof.
  revert h. induction j as [|j IH]; intros h.
  - reflexivity.
  - change (heap_after body self args (S (S j)) h)
      with (heap_after body self args (S j) (snd (body self args h))).
    rewrite IH. reflexivity.
Qed.

Lemma call_explicit qualname body N d base jitter self args w :
  call (retry_function_with_exponential_backoff (Def qualname body) N d base jitter)
    self args w =
  attempt_loop (run_method body) N base jitter self args (range 1 (N + 1)) d None w.
Proof. reflexivity. Qed.

(** The run of the wrapper when each of the [N] calls is rate limited. *)
Lemma call_exhausts qualname body N d base jitter self args w :
  1 <= N ->
  (forall i, (i < Z.to_nat N)%nat ->
             rate_limited (outcome body self args i (heap w))) ->
  exists e w' tr,
    call (retry_function_with_exponential_backoff (Def qualname body) N d base jitter)
      self args w = (Raise (retry_exhausted e), w') /\
    outcome body self args (Z.to_nat N - 1) (heap w) = Raise e /\
    isinstance_RateLimitException e = true /\
    heap w' = heap_after body self args (Z.to_nat N) (heap w) /\
    trace w' = trace w ++ tr /\
    awaits tr = Z.to_nat N /\
    sleeps tr = delays base jitter (random_source w) (drawn w) d (Z.to_nat N).
Proof.
  intros HN Hfail. rewrite call_explicit.
  destruct (attempt_loop_exhausts body N base jitter self args
              (range 1 (N + 1)) d None w) as (wn & tr & Hrun & Hheap & Htr & Haw & Hsl).
  { rewrite length_range_1. exact Hfail. }
  rewrite length_range_1 in *.
  destruct (Z.to_nat N) as [|n] eqn:HNn; [lia|].
  destruct (Hfail n) as (e & He & Hcatch); [lia|].
  exists e, wn, tr.
  replace (S n - 1)%nat with n by lia.
  repeat split; try assumption.
  rewrite Hrun. simpl. rewrite He. reflexivity.
Qed.

(** The run of the wrapper when the first [j] calls are rate limited and
    the next one is not. *)
Lemma call_stops qualname body N d base jitter self args w j :
  Z.of_nat j < N ->
  (forall i, (i < j)%nat -> rate_limited (outcome body self args i (heap w))) ->
  ~ rate_limited (outcome body self args j (heap w)) ->
  exists w' tr,
    call (retry_function_with_exponential_backoff (Def qualname body) N d base jitter)
      self args w = (outcome body self args j (heap w), w') /\
    heap w' = heap_after body self args (S j) (heap w) /\
    trace w' = trace w ++ tr ++ [EvAwait] /\
    awaits tr = j /\
    sleeps tr = delays base jitter (random_source w) (drawn w) d j.
Proof.
  intros Hj Hfail Hstop. rewrite call_explicit.
  destruct (attempt_loop_reaches body N base jitter self args
              (range 1 (N + 1)) j d None w)
    as (n & rest & dj & wj & tr & Hrun & Hheap & _ & _ & Htr & Haw & Hsl).
  { rewrite length_range_1. lia. }
  { exact Hfail. }
  rewrite Hrun.
  unfold outcome in *. rewrite <- Hheap in *.
  destruct (fst (body self args (heap wj))) as [v|e] eqn:Hout.
  - rewrite (attempt_loop_return body N base jitter self args n rest dj _ wj v Hout).
    eexists _, tr. split; [reflexivity|].
    rewrite heap_after_S, <- Hheap. cbn [heap trace].
    rewrite Htr, <- app_assoc. auto.
  - destruct (isinstance_RateLimitException e) eqn:Hcatch.
    { exfalso. apply Hstop. exists e. auto. }
    rewrite (attempt_loop_propagate body N base jitter self args n rest dj _ wj e
               Hout Hcatch).
    eexists _, tr. split; [reflexivity|].
    rewrite heap_after_S, <- Hheap. cbn [heap trace].
    rewrite Htr, <- app_assoc. auto.
Qed.

(** C5 (what the code does): with [max_retries = 0] the loop body never
    runs, and evaluating the cause of the final [raise] reads the unbound
    local [last_exception]: the wrapper raises [UnboundLocalError], not the
    retry-exhausted error, without calling the operation. *)
Theorem zero_retries_raises_UnboundLocalError
    (func : function (F:=F) (R:=R) (A:=A) (T:=T)) d base jitter self args w :
  exists x,
    call (retry_function_with_exponential_backoff func 0 d base jitter) self args w
    = (Raise x, w) /\
    exc_cls x = UnboundLocalError /\
    isinstance_RateLimitException x = false.
Proof.
  eexists. split; [reflexivity|]. split; reflexivity.
Qed.

(** Whatever the operation does, the sleeps of one call of the wrapper are
    the first few delays of the sequence computed by [delays]. *)
Lemma attempt_loop_sleeps body N base jitter self args nums d last w :
  exists k,
    (k <= length nums)%nat /\
    sleeps (trace (snd (attempt_loop (run_method body) N base jitter self args
                          nums d last w))) =
    sleeps (trace w) ++ delays base jitter (random_source w) (drawn w) d k.
Proof.
  revert d last w. induction nums as [|n rest IH]; intros d last w.
  - exists O. split; [reflexivity|].
    destruct last; simpl; rewrite app_nil_r; reflexivity.
  - destruct (fst (body self args (heap w))) as [v|e] eqn:Hout.
    + exists O. split; [lia|].
      rewrite (attempt_loop_return body N base jitter self args n rest d last w v Hout).
      simpl. rewrite sleeps_app. reflexivity.
    + destruct (isinstance_RateLimitException e) eqn:Hcatch.
      * rewrite (attempt_loop_failure body N base jitter self args n rest d last w e
                   Hout Hcatch).
        match goal with
        | |- context [attempt_loop _ _ _ _ _ _ rest ?d' ?last' ?w'] =>
            destruct (IH d' last' w') as (k & Hk & Hsl)
        end.
        exists (S k). split; [simpl; lia|].
        rewrite Hsl. simpl. rewrite sleeps_app, <- app_assoc. reflexivity.
      * exists O. split; [lia|].
        rewrite (attempt_loop_propagate body N base jitter self args n rest d last w e
                   Hout Hcatch).
        simpl. rewrite sleeps_app. reflexivity.
Qed.

Lemma call_sleeps qualname body N d base jitter self args w :
  exists k,
    (k <= Z.to_nat N)%nat /\
    sleeps (trace (snd (call (retry_function_with_exponential_backoff
                                (Def qualname body) N d base jitter) self args w))) =
    sleeps (trace w) ++ delays base jitter (random_source w) (drawn w) d k.
Proof.
  rewrite call_explicit.
  destruct (attempt_loop_sleeps body N base jitter self args (range 1 (N + 1)) d None w)
    as (k & Hk & Hsl).
  rewrite length_range_1 in Hk. exists k. split; assumption.
Qed.

Lemma call_delays_spec qualname body N d base jitter self args w :
  exists k,
    (k <= Z.to_nat N)%nat /\
    call_delays (retry_function_with_exponential_backoff
                   (Def qualname body) N d base jitter) self args w =
    delays base jitter (random_source w) (drawn w) d k.
Proof.
  destruct (call_sleeps qualname body N d base jitter self args w) as (k & Hk & Hsl).
  exists k. split; [exact Hk|].
  unfold call_delays. rewrite Hsl. apply drop_app_length.
Qed.

End ExplicitPolicy.

(** ** The wrapper that reads its policy from the receiver *)

Section ReceiverPolicy.

Context {F : Type} `{Number F}.
Context {R A T : Type}.

Local Abbreviation function := (function (F:=F) (R:=R) (A:=A) (T:=T)).

(** C8: [retry_with_exponential_backoff] is idempotent.  Applied to a
    function that already is its wrapper it returns that very function, so
    decorating twice gives the same function object, and hence the same
    behaviour, as decorating once. *)
Theorem retry_with_exponential_backoff_idempotent (func : function) :
  (forall wrapped : function,
      code_is (code_of wrapped) code__wrapper = true ->
      retry_with_exponential_backoff wrapped = wrapped) /\
  retry_with_exponential_backoff (retry_with_exponential_backoff func) =
    retry_with_exponential_backoff func /\
  call (retry_with_exponential_backoff (retry_with_exponential_backoff func)) =
    call (retry_with_exponential_backoff func).
Proof.
  assert (Hfix : forall wrapped : function,
             code_is (code_of wrapped) code__wrapper = true ->
             retry_with_exponential_backoff wrapped = wrapped).
  { intros wrapped Hc. unfold retry_with_exponential_backoff.
    rewrite Hc. reflexivity. }
  assert (Hidem : retry_with_exponential_backoff (retry_with_exponential_backoff func)
                  = retry_with_exponential_backoff func).
  { apply Hfix. unfold retry_with_exponential_backoff.
    destruct (code_is (code_of func) code__wrapper) eqn:Hc.
    - exact Hc.
    - reflexivity. }
  split; [exact Hfix|]. split; [exact Hidem|].
  rewrite Hidem. reflexivity.
Qed.

(** C9: each invocation of the wrapped method uses the four policy values
    the receiver holds when that invocation starts.  It behaves as the
    explicit-policy wrapper built from those values; after the receiver's
    attributes are changed, the next invocation behaves as the one built
    from the new values. *)
Theorem policy_is_read_at_call_time
    qualname (body : Method F R A T) self args (w : World F R)
    (c c' : Connector F) :
  objects (heap w) !! self = Some c ->
  let wrapped := retry_with_exponential_backoff (Def qualname body) in
  let explicit (p : Connector F) :=
    retry_function_with_exponential_backoff (Def qualname body)
      (max_retries p) (initial_delay p) (exponential_base p) (jitter p) in
  call wrapped self args w = call (explicit c) self args w /\
  let w1 := setattr_policy self c' (snd (call wrapped self args w)) in
  call wrapped self args w1 = call (explicit c') self args w1.
Proof.
  intros Hc wrapped explicit.
  assert (Hread : forall (w0 : World F R) p,
             objects (heap w0) !! self = Some p ->
             call wrapped self args w0 = call (explicit p) self args w0).
  { intros w0 p Hp. unfold wrapped, explicit. simpl.
    unfold _wrapper, bind, getattr_policy. rewrite Hp. reflexivity. }
  split.
  - apply Hread, Hc.
  - intros w1. apply Hread. unfold w1, setattr_policy. simpl.
    apply lookup_insert_eq.
Qed.

End ReceiverPolicy.

(** ** Delays in binary64 arithmetic *)

Section Float64Delays.

Import Binary64.

Context {R A T : Type}.

Lemma digits2_pos_shift (m : positive) (n : nat) :
  Zpos (digits2_pos (Nat.iter n xO m)) = Zpos (digits2_pos m) + Z.of_nat n.
Proof.
  induction n as [|n IH].
  - simpl. lia.
  - change (Nat.iter (S n) xO m) with (xO (Nat.iter n xO m)).
    cbn [digits2_pos]. rewrite Pos2Z.inj_succ, IH. lia.
Qed.

(** Multiplying a float by 1.0 is exact: the product of the mantissas is the
    mantissa shifted left by 52 bits, and rounding shifts it back. *)
Lemma fmul_one_r (x : float) :
  valid x = true -> fmul x (float_of_Z 1) = x.
Proof.
  intros Hx.
  destruct x as [s|s| |s m e]; try reflexivity; try (destruct s; reflexivity).
  unfold valid, valid_binary, bounded, canonical_mantissa in Hx.
  apply andb_prop in Hx. destruct Hx as [Hcan Hle].
  apply Z.eqb_eq in Hcan.
  change (float_of_Z 1) with (S754_finite false 4503599627370496 (-52)).
  unfold fmul, SFmul.
  rewrite Pos.mul_comm.
  change (4503599627370496 * m)%positive with (Nat.iter 52 xO m).
  unfold binary_round_aux, shr_fexp.
  cbn [Zdigits2]. rewrite digits2_pos_shift.
  replace (Z.pos (digits2_pos m) + Z.of_nat 52 + (e + -52))
    with (Z.pos (digits2_pos m) + e) by lia.
  rewrite Hcan.
  replace (e - (e + -52)) with 52 by lia.
  change (shr (shr_record_of_loc (Z.pos (Nat.iter 52 xO m)) loc_Exact) (e + -52) 52)
    with ({| shr_m := Z.pos m; shr_r := false; shr_s := false |}, e + -52 + 52).
  cbn [shr_m loc_of_shr_record round_nearest_even Zdigits2].
  replace (e + -52 + 52) with e by lia.
  rewrite Hcan, Z.sub_diag. cbn [shr shr_record_of_loc shr_m].
  rewrite Hle. destruct s; reflexivity.
Qed.

(** [1 + False * r] is 1.0 for every [r] that [random.random()] can
    return. *)
Lemma no_jitter_factor (r : float) :
  unit_interval r = true ->
  fadd (float_of_Z 1) (fmul (float_of_bool false) r) = float_of_Z 1.
Proof.
  unfold unit_interval. intros Hr.
  apply andb_prop in Hr. destruct Hr as [Hr Hlt].
  apply andb_prop in Hr. destruct Hr as [_ Hle].
  destruct r as [s|s| |s m e].
  - destruct s; reflexivity.
  - destruct s; [discriminate Hle | discriminate Hlt].
  - discriminate Hle.
  - destruct s; [discriminate Hle | reflexivity].
Qed.

Lemma increment_delay_no_jitter (d base r : float) :
  valid base = true -> unit_interval r = true ->
  increment_delay d base false r = fmul d base.
Proof.
  intros Hbase Hr. unfold increment_delay.
  change (mul d (mul base (add (of_int 1) (mul (of_bool false) r))))
    with (fmul d (fmul base (fadd (float_of_Z 1) (fmul (float_of_bool false) r)))).
  rewrite (no_jitter_factor r Hr), (fmul_one_r base Hbase). reflexivity.
Qed.



End Float64Delays.

(** ** The policy of the specification's example, run *)

Section Examples.

Import Binary64.

(** C1 (what the code does): with [max_retries=3], [initial_delay=1.0],
    [exponential_base=2.0], [jitter=False] and an operation that is rate
    limited every time, the wrapper calls the operation three times and
    sleeps after each of the three failures, for 2.0, 4.0 and 8.0 seconds;
    the retry-exhausted error is raised only after the third sleep. *)
Theorem three_failures_sleep_three_times :
  let run :=
    call (retry_function_with_exponential_backoff
            (Def "get_response" always_limited)
            3 (float_of_Z 1) (float_of_Z 2) false)
      1%positive tt Sample64.world in
  fst run = Raise (retry_exhausted (rate_limit 3)) /\
  trace (snd run) =
    [EvAwait; EvWarning 1 3 (float_of_Z 2); EvSleep (float_of_Z 2);
     EvAwait; EvWarning 2 3 (float_of_Z 4); EvSleep (float_of_Z 4);
     EvAwait; EvWarning 3 3 (float_of_Z 8); EvSleep (float_of_Z 8)] /\
  sleeps (trace (snd run)) = [float_of_Z 2; float_of_Z 4; float_of_Z 8] /\
  awaits (trace (snd run)) = 3%nat.
Proof.
  cbv zeta. rewrite call_explicit.
  vm_compute. repeat split.
Qed.

(** The same holds for every operation that is rate limited three times,
    in every world: three sleeps, of 2.0, 4.0 and 8.0 seconds. *)
Lemma rate_limited_thrice_sleeps_thrice {R A T : Type}
    qualname (body : Method float R A T) self args (w : World float R) :
  (forall i, unit_interval (random_source w i) = true) ->
  (forall i, (i < 3)%nat -> rate_limited (outcome body self args i (heap w))) ->
  call_delays (retry_function_with_exponential_backoff (Def qualname body)
                 3 (float_of_Z 1) (float_of_Z 2) false) self args w =
  [float_of_Z 2; float_of_Z 4; float_of_Z 8].
Proof.
  intros Hrand Hfail.
  destruct (call_exhausts qualname body 3 (float_of_Z 1) (float_of_Z 2) false
              self args w) as (e & w' & tr & Hrun & _ & _ & _ & Htr & _ & Hsl).
  { lia. }
  { exact Hfail. }
  unfold call_delays. rewrite Hrun. cbn [snd].
  rewrite Htr, sleeps_app, drop_app_length, Hsl.
  change (Z.to_nat 3) with 3%nat. cbn [delays].
  rewrite !increment_delay_no_jitter by (reflexivity || apply Hrand).
  reflexivity.
Qed.

(** After the receiver's [max_retries] is lowered from 3 to 1, the same
    wrapped method gives up after a single call. *)
Example reconfigured_receiver :
  let wrapped := retry_with_exponential_backoff (Def "get_response" always_limited) in
  let w1 := snd (call wrapped 1%positive tt Sample64.world) in
  let w2 := setattr_policy 1%positive
              (mkConnector (float_of_Z 1) 1 (float_of_Z 2) false) w1 in
  let w3 := snd (call wrapped 1%positive tt w2) in
  awaits (trace w1) = 3%nat /\ awaits (trace w3) = 4%nat.
Proof.
  vm_compute. split; reflexivity.
Qed.

(** In binary64 the upper bound is not strict even for the first delay:
    [1 + r] rounds to 2.0 for the largest draw below 1. *)
Example largest_draw_doubles_the_delay :
  let r := float_of_dyadic (2 ^ 53 - 1) 53 in
  unit_interval r = true /\
  increment_delay (float_of_Z 1) (float_of_Z 2) true r =
  fmul (float_of_Z 2) (fmul (float_of_Z 1) (float_of_Z 2)).
Proof.
  vm_compute. split; reflexivity.
Qed.

End Examples.

(** ** The theorems at sample inputs *)

Section Witnesses.

Import Binary64.


Lemma policy_is_read_at_call_time_witness :
  call (retry_with_exponential_backoff (Def "get_response" always_limited))
    1%positive tt Sample64.world =
  call (retry_function_with_exponential_backoff (Def "get_response" always_limited)
          3 (float_of_Z 1) (float_of_Z 2) false)
    1%positive tt Sample64.world /\
  call (retry_with_exponential_backoff (Def "get_response" always_limited))
    1%positive tt
    (setattr_policy 1%positive (mkConnector (float_of_Z 1) 1 (float_of_Z 2) false)
       (snd (call (retry_with_exponential_backoff (Def "get_response" always_limited))
               1%positive tt Sample64.world))) =
  call (retry_function_with_exponential_backoff (Def "get_response" always_limited)
          1 (float_of_Z 1) (float_of_Z 2) false)
    1%positive tt
    (setattr_policy 1%positive (mkConnector (float_of_Z 1) 1 (float_of_Z 2) false)
       (snd (call (retry_with_exponential_backoff (Def "get_response" always_limited))
               1%positive tt Sample64.world))).
Proof.
  apply (policy_is_read_at_call_time "get_response" always_limited 1%positive tt
           Sample64.world Sample64.policy
           (mkConnector (float_of_Z 1) 1 (float_of_Z 2) false)).
  apply lookup_singleton_eq.
Defined.

End Witnesses.

(** ** The shape of every run of the explicit-policy wrapper *)

Section RunShape.

Context {F : Type} `{Number F}.
Context {R A T : Type}.

Implicit Types (body : Method F R A T) (w : World F R) (d base : F) (N : Z).

Lemma failed_rounds_events body N base jitter self args pre d w :
  trace (snd (failed_rounds body N base jitter self args pre d w)) =
  trace w ++ rounds_events N pre
               (delays base jitter (random_source w) (drawn w) d (length pre)).
Proof.
  revert d w. induction pre as [|n pre IH]; intros d w; simpl.
  - rewrite app_nil_r. reflexivity.
  - rewrite IH. simpl. rewrite <- app_assoc. reflexivity.
Qed.

Lemma take_range_1 (k : nat) N :
  (k <= Z.to_nat N)%nat ->
  take k (range 1 (N + 1)) = range 1 (Z.of_nat k + 1).
Proof.
  intros Hk. unfold range.
  rewrite List.firstn_map, take_seq.
  do 2 f_equal. lia.
Qed.

Lemma sleeps_rounds_events N (nums : list Z) (ds : list F) :
  length nums = length ds -> sleeps (rounds_events N nums ds) = ds.
Proof.
  revert ds. induction nums as [|n nums IH]; intros [|x ds] Hlen;
    try discriminate Hlen; simpl.
  - reflexivity.
  - rewrite IH by (simpl in Hlen; lia). reflexivity.
Qed.

Lemma awaits_rounds_events N (nums : list Z) (ds : list F) :
  length nums = length ds -> awaits (rounds_events N nums ds) = length nums.
Proof.
  revert ds. induction nums as [|n nums IH]; intros [|x ds] Hlen;
    try discriminate Hlen.
  - reflexivity.
  - change (rounds_events N (n :: nums) (x :: ds))
      with ([EvAwait; EvWarning n N x; EvSleep x] ++ rounds_events N nums ds).
    rewrite awaits_app, IH by (simpl in Hlen; lia). reflexivity.
Qed.

Lemma rate_limited_dec (r : result T) :
  {rate_limited r} + {~ rate_limited r}.
Proof.
  destruct r as [v|e].
  - right. intros (e & He & _). discriminate He.
  - destruct (isinstance_RateLimitException e) eqn:Hcatch.
    + left. exists e. split; [reflexivity | exact Hcatch].
    + right. intros (e' & He' & Hc). injection He' as <-. congruence.
Qed.

(** The first call, among the first [n], that is not rate limited. *)
Lemma first_stop body self args (h : Heap F R) (n : nat) :
  exists k,
    (k <= n)%nat /\
    (forall i, (i < k)%nat -> rate_limited (outcome body self args i h)) /\
    (k = n \/ ((k < n)%nat /\ ~ rate_limited (outcome body self args k h))).
Proof.
  induction n as [|n (k & Hk & Hfail & Hstop)].
  - exists O. split; [lia|]. split; [intros i Hi; lia | left; reflexivity].
  - destruct Hstop as [-> | [Hlt Hno]].
    + destruct (rate_limited_dec (outcome body self args n h)) as [Hy | Hn].
      * exists (S n). split; [lia|]. split; [|left; reflexivity].
        intros i Hi. destruct (Nat.eq_dec i n) as [-> | Hne];
          [exact Hy | apply Hfail; lia].
      * exists n. split; [lia|]. split; [exact Hfail|]. right. split; [lia | exact Hn].
    + exists k. split; [lia|]. split; [exact Hfail|]. right. split; [lia | exact Hno].
Qed.

Lemma heap_after_add body self args (i j : nat) (h : Heap F R) :
  heap_after body self args (i + j) h =
  heap_after body self args j (heap_after body self args i h).
Proof.
  revert h. induction i as [|i IH]; intros h; simpl; [reflexivity | apply IH].
Qed.

(** Every run: [k] rounds that end in the handler, then either the loop is
    over ([k] is the number of rounds) or one more call that returns or
    raises something else. *)
Lemma call_run qualname body N d base jitter self args w :
  exists (k : nat) (tail : list (event F)),
    (k <= Z.to_nat N)%nat /\
    (forall i, (i < k)%nat -> rate_limited (outcome body self args i (heap w))) /\
    trace (snd (call (retry_function_with_exponential_backoff
                        (Def qualname body) N d base jitter) self args w)) =
      trace w ++
      rounds_events N (range 1 (Z.of_nat k + 1))
        (delays base jitter (random_source w) (drawn w) d k) ++ tail /\
    random_source (snd (call (retry_function_with_exponential_backoff
                        (Def qualname body) N d base jitter) self args w)) =
      random_source w /\
    drawn (snd (call (retry_function_with_exponential_backoff
                        (Def qualname body) N d base jitter) self args w)) =
      (drawn w + k)%nat /\
    heap (snd (call (retry_function_with_exponential_backoff
                        (Def qualname body) N d base jitter) self args w)) =
      heap_after body self args (k + length tail) (heap w) /\
    ((tail = [] /\ k = Z.to_nat N /\
      fst (call (retry_function_with_exponential_backoff
                   (Def qualname body) N d base jitter) self args w) =
      fst (raise_exhausted (last_after body self args k (heap w) None) w))
     \/
     (tail = [EvAwait] /\ (k < Z.to_nat N)%nat /\
      fst (call (retry_function_with_exponential_backoff
                   (Def qualname body) N d base jitter) self args w) =
      outcome body self args k (heap w) /\
      ~ rate_limited (outcome body self args k (heap w)))).
Proof.
  rewrite call_explicit.
  destruct (first_stop body self args (heap w) (Z.to_nat N))
    as (k & Hk & Hfail & Hstop).
  set (nums := range 1 (N + 1)).
  assert (Hlen : length nums = Z.to_nat N) by apply length_range_1.
  assert (Htake : take k nums = range 1 (Z.of_nat k + 1))
    by (apply take_range_1; exact Hk).
  assert (Hlk : length (take k nums) = k) by (rewrite length_take; lia).
  pose (fr := failed_rounds body N base jitter self args (take k nums) d w).
  assert (Hrun : attempt_loop (run_method body) N base jitter self args nums d None w =
                 attempt_loop (run_method body) N base jitter self args (drop k nums)
                   (fst fr) (last_after body self args k (heap w) None) (snd fr)).
  { rewrite <- (take_drop k nums) at 1.
    rewrite attempt_loop_failures; rewrite Hlk; [reflexivity | exact Hfail]. }
  assert (Htr : trace (snd fr) =
                trace w ++ rounds_events N (range 1 (Z.of_nat k + 1))
                  (delays base jitter (random_source w) (drawn w) d k)).
  { unfold fr. rewrite failed_rounds_events, Hlk, Htake. reflexivity. }
  assert (Hheap : heap (snd fr) = heap_after body self args k (heap w)).
  { unfold fr. rewrite failed_rounds_heap, Hlk. reflexivity. }
  destruct (failed_rounds_random body N base jitter self args (take k nums) d w)
    as [Hrs Hdr]. fold fr in Hrs, Hdr. rewrite Hlk in Hdr.
  destruct Hstop as [-> | [Hlt Hno]].
  - exists (Z.to_nat N), []. rewrite Hrun.
    rewrite drop_ge by lia. simpl attempt_loop.
    assert (Hw : forall last, snd (raise_exhausted (T:=T) last (snd fr)) = snd fr)
      by (intros [e|]; reflexivity).
    assert (Hr : forall last (w1 w2 : World F R),
               fst (raise_exhausted (T:=T) last w1) = fst (raise_exhausted last w2))
      by (intros [e|] w1 w2; reflexivity).
    rewrite Hw, Htr, app_nil_r, Hrs, Hdr, Hheap.
    repeat split; try assumption.
    + simpl. rewrite Nat.add_0_r. reflexivity.
    + left. repeat split. apply Hr.
  - exists k, [EvAwait]. rewrite Hrun.
    destruct (drop k nums) as [|n rest] eqn:Hdrop.
    { apply (f_equal length) in Hdrop. rewrite length_drop in Hdrop.
      simpl in Hdrop. lia. }
    assert (Hout : fst (body self args (heap (snd fr))) =
                   outcome body self args k (heap w))
      by (rewrite Hheap; reflexivity).
    assert (Hnext : snd (body self args (heap (snd fr))) =
                    heap_after body self args (k + 1) (heap w)).
    { rewrite heap_after_add, <- Hheap. reflexivity. }
    destruct (outcome body self args k (heap w)) as [v|e] eqn:Hk'.
    + rewrite (attempt_loop_return body N base jitter self args n rest _ _ _ v Hout).
      cbn [fst snd trace random_source drawn heap].
      rewrite Htr, <- app_assoc, Hrs, Hdr, Hnext.
      repeat split; try assumption. right. repeat split; assumption.
    + destruct (isinstance_RateLimitException e) eqn:Hcatch.
      { exfalso. apply Hno. exists e. auto. }
      rewrite (attempt_loop_propagate body N base jitter self args n rest _ _ _ e
                 Hout Hcatch).
      cbn [fst snd trace random_source drawn heap].
      rewrite Htr, <- app_assoc, Hrs, Hdr, Hnext.
      repeat split; try assumption. right. repeat split; assumption.
Qed.

(** The same, read through the observations of one call. *)
Lemma call_observed qualname body N d base jitter self args w :
  exists (k : nat) (tail : list (event F)),
    (k <= Z.to_nat N)%nat /\
    call_events (retry_function_with_exponential_backoff
                   (Def qualname body) N d base jitter) self args w =
      rounds_events N (range 1 (Z.of_nat k + 1))
        (delays base jitter (random_source w) (drawn w) d k) ++ tail /\
    call_delays (retry_function_with_exponential_backoff
                   (Def qualname body) N d base jitter) self args w =
      delays base jitter (random_source w) (drawn w) d k /\
    awaits (call_events (retry_function_with_exponential_backoff
                           (Def qualname body) N d base jitter) self args w) =
      (k + length tail)%nat /\
    random_source (snd (call (retry_function_with_exponential_backoff
                        (Def qualname body) N d base jitter) self args w)) =
      random_source w /\
    drawn (snd (call (retry_function_with_exponential_backoff
                        (Def qualname body) N d base jitter) self args w)) =
      (drawn w + k)%nat /\
    heap (snd (call (retry_function_with_exponential_backoff
                        (Def qualname body) N d base jitter) self args w)) =
      heap_after body self args (k + length tail) (heap w) /\
    ((tail = [] /\ k = Z.to_nat N) \/ (tail = [EvAwait] /\ (k < Z.to_nat N)%nat)).
Proof.
  destruct (call_run qualname body N d base jitter self args w)
    as (k & tail & Hk & _ & Htr & Hrs & Hdr & Hheap & Hend).
  assert (Hlen : length (range 1 (Z.of_nat k + 1)) =
                 length (delays base jitter (random_source w) (drawn w) d k)).
  { rewrite length_range_1, length_delays. lia. }
  assert (Htail : tail = [] \/ tail = [EvAwait])
    by (destruct Hend as [(-> & _) | (-> & _)]; auto).
  exists k, tail. split; [exact Hk|].
  split; [unfold call_events; rewrite Htr; apply drop_app_length|].
  split.
  { unfold call_delays. rewrite Htr, !sleeps_app, drop_app_length.
    rewrite (sleeps_rounds_events N _ _ Hlen).
    destruct Htail as [-> | ->]; simpl; apply app_nil_r. }
  split.
  { unfold call_events. rewrite Htr, drop_app_length, awaits_app.
    rewrite (awaits_rounds_events N _ _ Hlen), length_range_1.
    replace (Z.to_nat (Z.of_nat k)) with k by lia.
    destruct Htail as [-> | ->]; reflexivity. }
  repeat split; try assumption.
  destruct Hend as [(Ht & HkN & _) | (Ht & HkN & _)]; auto.
Qed.

(** X2: the wrapper draws one random number per sleep, whether or not
    jitter is enabled, and none otherwise. *)
Theorem one_random_draw_per_sleep
    qualname body N d base jitter self args w :
  drawn (snd (call (retry_function_with_exponential_backoff
                      (Def qualname body) N d base jitter) self args w)) =
    (drawn w +
     length (call_delays (retry_function_with_exponential_backoff
                            (Def qualname body) N d base jitter) self args w))%nat /\
  random_source (snd (call (retry_function_with_exponential_backoff
                              (Def qualname body) N d base jitter) self args w)) =
    random_source w.
Proof.
  destruct (call_observed qualname body N d base jitter self args w)
    as (k & tail & _ & _ & Hsl & _ & Hrs & Hdr & _).
  rewrite Hsl, length_delays. split; assumption.
Qed.

(** X3: one call of the wrapper invokes the operation at most [max_retries]
    times (never, when [max_retries] is not positive); it sleeps after every
    invocation but possibly the last. *)
Theorem attempts_are_bounded_by_max_retries
    qualname body N d base jitter self args w :
  let f := retry_function_with_exponential_backoff
             (Def qualname body) N d base jitter in
  (awaits (call_events f self args w) <= Z.to_nat N)%nat /\
  (length (call_delays f self args w) <= awaits (call_events f self args w))%nat /\
  (awaits (call_events f self args w) <= S (length (call_delays f self args w)))%nat.
Proof.
  intros f. unfold f.
  destruct (call_observed qualname body N d base jitter self args w)
    as (k & tail & Hk & _ & Hsl & Haw & _ & _ & _ & Hend).
  rewrite Hsl, Haw, length_delays.
  destruct Hend as [(-> & ->) | (-> & Hlt)]; simpl; lia.
Qed.

(** X4: the wrapper itself never writes to the heap: after a call, the
    heap is the one the invocations of the operation alone produce. *)
Theorem heap_changes_only_through_the_operation
    qualname body N d base jitter self args w :
  let f := retry_function_with_exponential_backoff
             (Def qualname body) N d base jitter in
  heap (snd (call f self args w)) =
  heap_after body self args (awaits (call_events f self args w)) (heap w).
Proof.
  intros f. unfold f.
  destruct (call_observed qualname body N d base jitter self args w)
    as (k & tail & _ & _ & _ & Haw & _ & _ & Hheap & _).
  rewrite Haw. exact Hheap.
Qed.

(** X6: when [max_retries] is zero or negative the loop has no round: the
    operation is never invoked, nothing is drawn, logged or slept, and the
    final [raise] fails with [UnboundLocalError]. *)
Theorem nonpositive_max_retries_never_calls
    (func : function (F:=F) (R:=R) (A:=A) (T:=T)) N d base jitter self args w :
  N <= 0 ->
  exists x,
    call (retry_function_with_exponential_backoff func N d base jitter) self args w
    = (Raise x, w) /\
    exc_cls x = UnboundLocalError.
Proof.
  intros HN. simpl. unfold exponential_delay.
  assert (Hr : range 1 (N + 1) = []).
  { unfold range. replace (Z.to_nat (N + 1 - 1)) with O by lia. reflexivity. }
  rewrite Hr. eexists. split; reflexivity.
Qed.

End RunShape.

(** ** Wrapping a wrapper *)

Section Nesting.

Context {F : Type} `{Number F}.
Context {R A T : Type}.

Implicit Types (body : Method F R A T) (w : World F R) (d base : F) (N : Z).

(** One round of the loop around an arbitrary coroutine that ends in the
    handler. *)
Lemma attempt_loop_round (func : Coroutine F R A T) N base jitter self args
    num_retries rest d last w e w1 :
  func self args
    (mkWorld (heap w) (random_source w) (drawn w) (trace w ++ [EvAwait]))
  = (Raise e, w1) ->
  isinstance_RateLimitException e = true ->
  attempt_loop func N base jitter self args (num_retries :: rest) d last w =
  attempt_loop func N base jitter self args rest
    (increment_delay d base jitter (random_source w1 (drawn w1))) (Some e)
    (mkWorld (heap w1) (random_source w1) (S (drawn w1))
       ((trace w1 ++
         [EvWarning num_retries N
            (increment_delay d base jitter (random_source w1 (drawn w1)))]) ++
        [EvSleep (increment_delay d base jitter (random_source w1 (drawn w1)))])).
Proof.
  intros Hcall Hcatch. simpl.
  unfold try_except_RateLimitException at 1.
  unfold await, bind at 1, emit. rewrite Hcall, Hcatch.
  reflexivity.
Qed.

Lemma always_limited_outcomes body self args (h : Heap F R) :
  (forall h', rate_limited (fst (body self args h'))) ->
  forall i, rate_limited (outcome body self args i h).
Proof. intros Hall i. apply Hall. Qed.

(** The loop of the outer wrapper around an inner wrapper whose operation
    is rate limited whenever it is invoked. *)
Lemma outer_loop_exhausts qualname body Ni di bi ji No bo jo self args :
  1 <= Ni ->
  (forall h, rate_limited (fst (body self args h))) ->
  forall nums d last w,
  exists last' w',
    attempt_loop
      (call (retry_function_with_exponential_backoff (Def qualname body) Ni di bi ji))
      No bo jo self args nums d last w
    = raise_exhausted last' w' /\
    heap w' = heap_after body self args (length nums * Z.to_nat Ni) (heap w) /\
    length (sleeps (trace w')) =
      (length (sleeps (trace w)) + length nums * (Z.to_nat Ni + 1))%nat /\
    match nums with
    | [] => last' = last
    | _ :: _ =>
        exists e, last' = Some (retry_exhausted e) /\
                  isinstance_RateLimitException e = true
    end.
Proof.
  intros HNi Hall.
  induction nums as [|n rest IH]; intros d last w.
  - exists last, w. simpl. repeat split. lia.
  - set (w0 := mkWorld (heap w) (random_source w) (drawn w) (trace w ++ [EvAwait])).
    destruct (call_exhausts qualname body Ni di bi ji self args w0 HNi)
      as (e & w1 & tr & Hrun & _ & Hcatch & Hheap & Htr & _ & Hsl).
    { intros i _. apply always_limited_outcomes, Hall. }
    rewrite (attempt_loop_round _ No bo jo self args n rest d last w
               (retry_exhausted e) w1 Hrun eq_refl).
    match goal with
    | |- context [attempt_loop _ _ _ _ _ _ rest ?d2 ?l2 ?w2] =>
        destruct (IH d2 l2 w2) as (last' & w' & Hloop & Hh & Hs & Hl)
    end.
    exists last', w'. split; [exact Hloop|].
    cbn [heap trace] in Hh, Hs.
    split.
    { rewrite Hh, Hheap. cbn [heap w0 length].
      rewrite <- heap_after_add. f_equal; lia. }
    split.
    { rewrite Hs, !sleeps_app, !length_app, Htr, sleeps_app, length_app, Hsl.
      rewrite length_delays. unfold w0. cbn [trace length].
      rewrite sleeps_app, length_app. simpl. lia. }
    destruct rest as [|n' rest'].
    + exists e. subst last'. split; [reflexivity | exact Hcatch].
    + exact Hl.
Qed.

(** X11: the four policy values are read once, before the first attempt.
    An operation that changes its receiver's attributes while the call is
    running does not change that call: its attempts stay within the
    [max_retries] read at the start, and its delays are those computed from
    the values read at the start. *)
Theorem running_call_keeps_its_policy
    qualname body self args w (c : Connector F) :
  objects (heap w) !! self = Some c ->
  let wrapped := retry_with_exponential_backoff (Def qualname body) in
  (awaits (call_events wrapped self args w) <= Z.to_nat (max_retries c))%nat /\
  exists k : nat,
    call_delays wrapped self args w =
    delays (exponential_base c) (jitter c) (random_source w) (drawn w)
      (initial_delay c) k.
Proof.
  intros Hc wrapped.
  assert (Hcall : call wrapped self args w =
                  call (retry_function_with_exponential_backoff (Def qualname body)
                          (max_retries c) (initial_delay c) (exponential_base c)
                          (jitter c)) self args w).
  { unfold wrapped. simpl. unfold _wrapper, bind, getattr_policy.
    rewrite Hc. reflexivity. }
  destruct (call_observed qualname body (max_retries c) (initial_delay c)
              (exponential_base c) (jitter c) self args w)
    as (k & tail & Hk & _ & Hsl & Haw & _ & _ & _ & Hend).
  unfold call_events, call_delays in *. rewrite Hcall.
  split.
  - rewrite Haw. destruct Hend as [(-> & ->) | (-> & Hlt)]; simpl; lia.
  - exists k. exact Hsl.
Qed.

End Nesting.

(** ** The further theorems at sample inputs *)

Section MoreWitnesses.

Import Binary64.

Lemma always_limited_whenever_invoked (F : Type) (h : Heap F nat) :
  rate_limited (fst (always_limited (F:=F) 1%positive tt h)).
Proof.
  unfold always_limited, scripted. cbn [fst].
  destruct (remote h) as [|[|[|[|n]]]]; eexists; split; reflexivity.
Defined.

Lemma nonpositive_max_retries_never_calls_witness :
  exists x,
    call (retry_function_with_exponential_backoff
            (Def "get_response" always_limited)
            (-2) (float_of_Z 1) (float_of_Z 2) false)
      1%positive tt Sample64.world
    = (Raise x, Sample64.world) /\
    exc_cls x = UnboundLocalError.
Proof.
  apply (nonpositive_max_retries_never_calls (Def "get_response" always_limited)
           (-2) (float_of_Z 1) (float_of_Z 2) false 1%positive tt Sample64.world).
  lia.
Defined.

Lemma running_call_keeps_its_policy_witness :
  let wrapped := retry_with_exponential_backoff
                   (Def "get_response" raises_its_budget) in
  (awaits (call_events wrapped 1%positive tt Sample64.world)
   <= Z.to_nat (max_retries Sample64.policy))%nat /\
  exists k : nat,
    call_delays wrapped 1%positive tt Sample64.world =
    delays (exponential_base Sample64.policy) (jitter Sample64.policy)
      (random_source Sample64.world) (drawn Sample64.world)
      (initial_delay Sample64.policy) k.
Proof.
  apply (running_call_keeps_its_policy "get_response" raises_its_budget
           1%positive tt Sample64.world Sample64.policy).
  apply lookup_singleton_eq.
Defined.

(** The operation that raises its receiver's budget to 100 is still
    invoked three times only; the next call uses the new budget. *)
Example budget_raised_while_running :
  let wrapped := retry_with_exponential_backoff
                   (Def "get_response" raises_its_budget) in
  let w1 := snd (call wrapped 1%positive tt Sample64.world) in
  awaits (call_events wrapped 1%positive tt Sample64.world) = 3%nat /\
  awaits (call_events wrapped 1%positive tt w1) = 100%nat.
Proof.
  vm_compute. split; reflexivity.
Qed.

End MoreWitnesses.

(** ** binary64 rounding *)

Section Float64Rounding.

Import Binary64.

Lemma rne_decomposed (M n q rem : Z) :
  0 <= n -> M = q * 2 ^ n + rem -> 0 <= rem < 2 ^ n ->
  rne M n =
  if 2 * rem <? 2 ^ n then q
  else if 2 ^ n <? 2 * rem then q + 1
  else if Z.even q then q else q + 1.
Proof.
  intros Hn HM Hrem. unfold rne.
  assert (HP : 0 < 2 ^ n) by (apply Z.pow_pos_nonneg; lia).
  assert (Hq : M / 2 ^ n = q).
  { symmetry. apply (Z.div_unique M (2 ^ n) q rem); [left; lia | lia]. }
  assert (Hr : M mod 2 ^ n = rem).
  { symmetry. apply (Z.mod_unique M (2 ^ n) q rem); [left; lia | lia]. }
  rewrite Hq, Hr. reflexivity.
Qed.

Lemma rne_bounds (M n : Z) :
  0 <= n -> M / 2 ^ n <= rne M n <= M / 2 ^ n + 1.
Proof.
  intros Hn. unfold rne.
  destruct (2 * (M mod 2 ^ n) <? 2 ^ n); [lia|].
  destruct (2 ^ n <? 2 * (M mod 2 ^ n)); [lia|].
  destruct (Z.even (M / 2 ^ n)); lia.
Qed.

Lemma rne_mono (M M' n : Z) :
  0 <= n -> M <= M' -> rne M n <= rne M' n.
Proof.
  intros Hn HM.
  assert (HP : 0 < 2 ^ n) by (apply Z.pow_pos_nonneg; lia).
  pose proof (Z.div_le_mono M M' (2 ^ n) HP HM) as Hq.
  pose proof (rne_bounds M n Hn) as HB.
  pose proof (rne_bounds M' n Hn) as HB'.
  destruct (Z.eq_dec (M / 2 ^ n) (M' / 2 ^ n)) as [Heq | Hne]; [|lia].
  pose proof (Z.div_mod M (2 ^ n) ltac:(lia)) as HD.
  pose proof (Z.div_mod M' (2 ^ n) ltac:(lia)) as HD'.
  assert (Hrem : M mod 2 ^ n <= M' mod 2 ^ n) by (rewrite Heq in HD; nia).
  unfold rne. rewrite <- Heq.
  destruct (Z.ltb_spec (2 * (M mod 2 ^ n)) (2 ^ n));
    destruct (Z.ltb_spec (2 * (M' mod 2 ^ n)) (2 ^ n)); try lia;
    destruct (Z.ltb_spec (2 ^ n) (2 * (M mod 2 ^ n)));
    destruct (Z.ltb_spec (2 ^ n) (2 * (M' mod 2 ^ n))); try lia;
    destruct (Z.even (M / 2 ^ n)); lia.
Qed.

Lemma rne_double (M n : Z) :
  0 <= n -> rne (2 * M) (n + 1) = rne M n.
Proof.
  intros Hn.
  assert (HP : 0 < 2 ^ n) by (apply Z.pow_pos_nonneg; lia).
  pose proof (Z.div_mod M (2 ^ n) ltac:(lia)) as HD.
  pose proof (Z.mod_pos_bound M (2 ^ n) HP) as HR.
  rewrite (rne_decomposed (2 * M) (n + 1) (M / 2 ^ n) (2 * (M mod 2 ^ n)));
    [| lia | rewrite Z.pow_add_r by lia; change (2 ^ 1) with 2; lia
     | rewrite Z.pow_add_r by lia; change (2 ^ 1) with 2; lia].
  unfold rne. rewrite Z.pow_add_r by lia. change (2 ^ 1) with 2.
  destruct (Z.ltb_spec (2 * (M mod 2 ^ n)) (2 ^ n));
    destruct (Z.ltb_spec (2 * (2 * (M mod 2 ^ n))) (2 ^ n * 2)); try lia;
    destruct (Z.ltb_spec (2 ^ n) (2 * (M mod 2 ^ n)));
    destruct (Z.ltb_spec (2 ^ n * 2) (2 * (2 * (M mod 2 ^ n)))); try lia;
    reflexivity.
Qed.

Lemma shr_1_located (M n : Z) (rec : shr_record) :
  0 <= n -> located M n rec -> located M (n + 1) (shr_1 rec).
Proof.
  intros Hn (rem & HM & Hrem & Hm & Hloc).
  assert (HP : 0 < 2 ^ n) by (apply Z.pow_pos_nonneg; lia).
  destruct rec as [m r s]. cbn [shr_m shr_r shr_s] in *.
  unfold located. rewrite Z.pow_add_r by lia. change (2 ^ 1) with 2.
  destruct m as [|p|p]; [| |lia].
  - exists rem. cbn [shr_1 shr_m shr_r shr_s].
    destruct r, s; cbn [orb]; repeat split; try lia.
  - destruct p as [p|p|].
    + exists (rem + 2 ^ n). cbn [shr_1 shr_m shr_r shr_s].
      rewrite Pos2Z.inj_xI in HM.
      destruct r, s; cbn [orb]; repeat split; try lia.
    + exists rem. cbn [shr_1 shr_m shr_r shr_s].
      rewrite Pos2Z.inj_xO in HM.
      destruct r, s; cbn [orb]; repeat split; try lia.
    + exists (rem + 2 ^ n). cbn [shr_1 shr_m shr_r shr_s].
      destruct r, s; cbn [orb]; repeat split; try lia.
Qed.

Lemma iter_pos_nat {A} (f : A -> A) (p : positive) (x : A) :
  SpecFloat.iter_pos f p x = Nat.iter (Pos.to_nat p) f x.
Proof.
  revert x. induction p as [p IH|p IH|]; intros x; cbn [SpecFloat.iter_pos].
  - rewrite !IH, Pos2Nat.inj_xI.
    replace (S (2 * Pos.to_nat p)) with (Pos.to_nat p + (Pos.to_nat p + 1))%nat by lia.
    rewrite !Nat.iter_add. reflexivity.
  - rewrite !IH, Pos2Nat.inj_xO.
    replace (2 * Pos.to_nat p)%nat with (Pos.to_nat p + Pos.to_nat p)%nat by lia.
    rewrite Nat.iter_add. reflexivity.
  - reflexivity.
Qed.

Lemma iter_shr_located (M : Z) (n : nat) :
  0 <= M ->
  located M (Z.of_nat n)
    (Nat.iter n shr_1 {| shr_m := M; shr_r := false; shr_s := false |}).
Proof.
  intros HM. induction n as [|n IH].
  - exists 0. cbn. repeat split; lia.
  - rewrite Nat2Z.inj_succ. unfold Z.succ.
    cbn [Nat.iter]. apply shr_1_located; [lia | exact IH].
Qed.

Lemma located_rne (M n : Z) (rec : shr_record) :
  0 <= n -> located M n rec ->
  round_nearest_even (shr_m rec) (loc_of_shr_record rec) = rne M n.
Proof.
  intros Hn (rem & HM & Hrem & Hm & Hloc).
  rewrite (rne_decomposed M n (shr_m rec) rem Hn HM Hrem).
  destruct rec as [m r s]. cbn [shr_m shr_r shr_s loc_of_shr_record] in *.
  destruct r, s; cbn [round_nearest_even].
  - destruct (Z.ltb_spec (2 * rem) (2 ^ n)); [lia|].
    destruct (Z.ltb_spec (2 ^ n) (2 * rem)); [reflexivity | lia].
  - destruct (Z.ltb_spec (2 * rem) (2 ^ n)); [lia|].
    destruct (Z.ltb_spec (2 ^ n) (2 * rem)); [lia | reflexivity].
  - destruct Hloc. destruct (Z.ltb_spec (2 * rem) (2 ^ n)); [reflexivity | lia].
  - subst rem. destruct (Z.ltb_spec (2 * 0) (2 ^ n)); [reflexivity | lia].
Qed.

(** [shr] by [n >= 0] positions, then rounding *)
Lemma shr_rne (M e n : Z) :
  0 <= M -> 0 <= n ->
  let '(rec, e') := shr {| shr_m := M; shr_r := false; shr_s := false |} e n in
  round_nearest_even (shr_m rec) (loc_of_shr_record rec) = rne M n /\ e' = e + n.
Proof.
  intros HM Hn. destruct n as [|p|p]; [| |lia].
  - cbn [shr]. split; [|lia].
    apply located_rne; [lia|]. exists 0. cbn. repeat split; lia.
  - cbn [shr]. split; [|reflexivity].
    apply located_rne; [lia|].
    rewrite iter_pos_nat. rewrite <- (positive_nat_Z p).
    apply iter_shr_located. exact HM.
Qed.

Lemma digits2_pos_bounds (m : positive) :
  2 ^ (Zpos (digits2_pos m) - 1) <= Zpos m < 2 ^ Zpos (digits2_pos m).
Proof.
  induction m as [p IH|p IH|]; cbn [digits2_pos].
  - rewrite Pos2Z.inj_succ. change (Z.pos p~1) with (2 * Z.pos p + 1).
    replace (Z.succ (Z.pos (digits2_pos p)) - 1) with (Z.succ (Z.pos (digits2_pos p) - 1)) by lia.
    rewrite !Z.pow_succ_r by lia.
    set (a := 2 ^ (Z.pos (digits2_pos p) - 1)) in *.
    set (b := 2 ^ Z.pos (digits2_pos p)) in *. clearbody a b. lia.
  - rewrite Pos2Z.inj_succ. change (Z.pos p~0) with (2 * Z.pos p).
    replace (Z.succ (Z.pos (digits2_pos p)) - 1) with (Z.succ (Z.pos (digits2_pos p) - 1)) by lia.
    rewrite !Z.pow_succ_r by lia.
    set (a := 2 ^ (Z.pos (digits2_pos p) - 1)) in *.
    set (b := 2 ^ Z.pos (digits2_pos p)) in *. clearbody a b. lia.
  - cbn. lia.
Qed.

Lemma digits2_pos_unique (m : positive) (d : Z) :
  2 ^ (d - 1) <= Zpos m < 2 ^ d -> Zpos (digits2_pos m) = d.
Proof.
  intros [Hlo Hhi].
  pose proof (digits2_pos_bounds m) as [Hlo' Hhi'].
  assert (Hd : 0 < d).
  { destruct (Z.ltb_spec 0 d) as [|Hle]; [assumption|].
    exfalso. destruct (Z.eq_dec d 0) as [-> | Hne].
    - cbn in Hhi. lia.
    - rewrite (Z.pow_neg_r 2 d) in Hhi by lia. lia. }
  assert (H1 : Zpos (digits2_pos m) - 1 < d).
  { apply (Z.pow_lt_mono_r_iff 2); lia. }
  assert (H2 : d - 1 < Zpos (digits2_pos m)).
  { apply (Z.pow_lt_mono_r_iff 2); lia. }
  lia.
Qed.

Lemma shr_rne' (M e n : Z) :
  0 <= M -> 0 <= n ->
  round_nearest_even
    (shr_m (fst (shr {| shr_m := M; shr_r := false; shr_s := false |} e n)))
    (loc_of_shr_record
       (fst (shr {| shr_m := M; shr_r := false; shr_s := false |} e n)))
  = rne M n /\
  snd (shr {| shr_m := M; shr_r := false; shr_s := false |} e n) = e + n.
Proof.
  intros HM Hn. pose proof (shr_rne M e n HM Hn) as H.
  destruct (shr _ e n) as [rec e']. exact H.
Qed.

Lemma rne_range (M D : Z) :
  53 <= D -> 2 ^ (D - 1) <= M < 2 ^ D ->
  2 ^ 52 <= rne M (D - 53) <= 2 ^ 53.
Proof.
  intros HD [Hlo Hhi].
  assert (HP : 0 < 2 ^ (D - 53)) by (apply Z.pow_pos_nonneg; lia).
  pose proof (rne_bounds M (D - 53) ltac:(lia)) as HB.
  assert (Hq1 : 2 ^ 52 <= M / 2 ^ (D - 53)).
  { apply Z.div_le_lower_bound; [lia|].
    rewrite <- Z.pow_add_r by lia. replace (D - 53 + 52) with (D - 1) by lia. lia. }
  assert (Hq2 : M / 2 ^ (D - 53) < 2 ^ 53).
  { apply Z.div_lt_upper_bound; [lia|].
    rewrite <- Z.pow_add_r by lia. replace (D - 53 + 53) with D by lia. lia. }
  lia.
Qed.

Lemma binary_round_aux_normal (s : bool) (M : positive) (E : Z) :
  let D := Zpos (digits2_pos M) in
  53 <= D -> 3 - emax - prec <= E + D - 53 ->
  binary_round_aux prec emax s (Zpos M) E loc_Exact =
  finish s (rne (Zpos M) (D - 53)) (E + D - 53).
Proof.
  intros D HD Hemin.
  pose proof (digits2_pos_bounds M) as HMb. fold D in HMb.
  pose proof (rne_range (Zpos M) D HD HMb) as Hr.
  unfold binary_round_aux, shr_fexp.
  cbn [Zdigits2 shr_record_of_loc]. fold D.
  assert (Hfexp : fexp prec emax (D + E) = D + E - 53).
  { unfold fexp, emin, prec, emax in *. lia. }
  rewrite Hfexp. replace (D + E - 53 - E) with (D - 53) by lia.
  destruct (shr_rne' (Zpos M) E (D - 53) ltac:(lia) ltac:(lia)) as [Hm He].
  destruct (shr {| shr_m := Z.pos M; shr_r := false; shr_s := false |} E (D - 53))
    as [rec e'] eqn:Hshr.
  cbn [fst snd] in Hm, He. rewrite Hm. subst e'.
  replace (E + (D - 53)) with (E + D - 53) by lia.
  set (m1 := rne (Z.pos M) (D - 53)) in *.
  set (e1 := E + D - 53) in *.
  unfold finish.
  destruct (Z.eqb_spec m1 (2 ^ 53)) as [Heq | Hne].
  - rewrite Heq. change (Zdigits2 (2 ^ 53)) with 54.
    assert (Hf : fexp prec emax (54 + e1) = e1 + 1).
    { unfold fexp, emin, prec, emax in *. lia. }
    rewrite Hf. replace (e1 + 1 - e1) with 1 by lia.
    cbn [shr SpecFloat.iter_pos]. change (2 ^ 53) with 9007199254740992.
    cbn [shr_1 shr_m]. unfold overflow_check.
    change (2 ^ 52) with 4503599627370496. cbn [Z.to_pos].
    reflexivity.
  - destruct m1 as [|p|p] eqn:Hm1; try lia.
    assert (Hd : Zpos (digits2_pos p) = 53).
    { apply digits2_pos_unique. change (2 ^ (53 - 1)) with (2 ^ 52). lia. }
    cbn [Zdigits2]. rewrite Hd.
    assert (Hf : fexp prec emax (53 + e1) = e1).
    { unfold fexp, emin, prec, emax in *. lia. }
    rewrite Hf, Z.sub_diag. cbn [shr shr_m].
    unfold overflow_check. cbn [Z.to_pos]. reflexivity.
Qed.

Lemma normal_inv (x : spec_float) :
  normal x = true ->
  exists m e, x = S754_finite false m e /\
              2 ^ 52 <= Zpos m < 2 ^ 53 /\ -1074 <= e <= 971.
Proof.
  destruct x as [s|s| |[|] m e]; try discriminate. cbn [normal].
  intros H. apply andb_prop in H. destruct H as [H He2].
  apply andb_prop in H. destruct H as [Hd He1].
  apply Z.eqb_eq in Hd. apply Z.leb_le in He1, He2.
  exists m, e. split; [reflexivity|]. split; [|lia].
  pose proof (digits2_pos_bounds m) as Hb. rewrite Hd in Hb.
  change (2 ^ (53 - 1)) with (2 ^ 52) in Hb. exact Hb.
Qed.

Lemma normal_intro (m : positive) (e : Z) :
  2 ^ 52 <= Zpos m < 2 ^ 53 -> -1074 <= e <= 971 ->
  normal (S754_finite false m e) = true.
Proof.
  intros Hm He. cbn [normal].
  rewrite (digits2_pos_unique m 53) by (change (2 ^ (53 - 1)) with (2 ^ 52); lia).
  rewrite Z.eqb_refl. cbn [andb].
  apply andb_true_intro. split; apply Z.leb_le; lia.
Qed.

Lemma fleb_finite (m1 m2 : positive) (e1 e2 : Z) :
  fleb (S754_finite false m1 e1) (S754_finite false m2 e2) = true <->
  e1 < e2 \/ (e1 = e2 /\ Zpos m1 <= Zpos m2).
Proof.
  unfold fleb, SFleb, SFcompare.
  destruct (Z.compare_spec e1 e2) as [He | He | He].
  - change (Pos.compare_cont Eq m1 m2) with (Pos.compare m1 m2).
    destruct (Pos.compare_spec m1 m2) as [Hm | Hm | Hm]; split; intros H;
      try reflexivity; try discriminate; try lia.
  - split; intros _; [lia | reflexivity].
  - split; intros H; [discriminate | lia].
Qed.

Lemma digits_of_product (ma mc : positive) :
  2 ^ 52 <= Zpos ma < 2 ^ 53 -> 2 ^ 52 <= Zpos mc < 2 ^ 53 ->
  2 ^ 104 <= Zpos (ma * mc) < 2 ^ 106 /\
  (Zpos (digits2_pos (ma * mc)) = 105 \/ Zpos (digits2_pos (ma * mc)) = 106).
Proof.
  intros Ha Hc. rewrite Pos2Z.inj_mul.
  assert (Hb : 2 ^ 104 <= Zpos ma * Zpos mc < 2 ^ 106).
  { change (2 ^ 104) with (2 ^ 52 * 2 ^ 52). change (2 ^ 106) with (2 ^ 53 * 2 ^ 53).
    split; [apply Z.mul_le_mono_nonneg; lia | apply Z.mul_lt_mono_nonneg; lia]. }
  split; [exact Hb|].
  pose proof (digits2_pos_bounds (ma * mc)) as Hd.
  rewrite Pos2Z.inj_mul in Hd.
  set (D := Zpos (digits2_pos (ma * mc))) in *.
  assert (H1 : D - 1 < 106) by (apply (Z.pow_lt_mono_r_iff 2); lia).
  assert (H2 : 104 < D) by (apply (Z.pow_lt_mono_r_iff 2); lia).
  lia.
Qed.

Lemma fmul_spec (ma mc : positive) (ea ec : Z) :
  2 ^ 52 <= Zpos ma < 2 ^ 53 -> 2 ^ 52 <= Zpos mc < 2 ^ 53 ->
  -1126 <= ea + ec ->
  fmul (S754_finite false ma ea) (S754_finite false mc ec) =
  finish false
    (rne (Zpos (ma * mc)) (Zpos (digits2_pos (ma * mc)) - 53))
    (ea + ec + Zpos (digits2_pos (ma * mc)) - 53).
Proof.
  intros Ha Hc HE.
  destruct (digits_of_product ma mc Ha Hc) as [_ HD].
  unfold fmul, SFmul. cbn [xorb].
  apply binary_round_aux_normal; unfold emax, prec; lia.
Qed.

Lemma overflow_check_le (m m' e e' : Z) :
  0 < m -> 0 < m' ->
  e < e' \/ (e = e' /\ m <= m') ->
  fleb (overflow_check false m e) (overflow_check false m' e') = true.
Proof.
  intros Hm Hm' Hle. unfold overflow_check, emax, prec.
  destruct (Z.leb_spec e' (1024 - 53)) as [He' | He'].
  - destruct (Z.leb_spec e (1024 - 53)) as [He | He]; [|lia].
    apply fleb_finite. rewrite !Z2Pos.id by lia. exact Hle.
  - destruct (Z.leb_spec e (1024 - 53)); reflexivity.
Qed.

Lemma finish_le (m1 m1' e1 e1' : Z) :
  2 ^ 52 <= m1 <= 2 ^ 53 -> 2 ^ 52 <= m1' <= 2 ^ 53 ->
  e1 < e1' \/ (e1 = e1' /\ m1 <= m1') ->
  fleb (finish false m1 e1) (finish false m1' e1') = true.
Proof.
  intros Hm Hm' Hle. unfold finish.
  assert (H52 : 0 < 2 ^ 52) by reflexivity.
  destruct (Z.eqb_spec m1 (2 ^ 53)); destruct (Z.eqb_spec m1' (2 ^ 53));
    apply overflow_check_le; lia.
Qed.

Lemma finish_normal_or_inf (m1 e1 : Z) :
  2 ^ 52 <= m1 <= 2 ^ 53 -> -1074 <= e1 ->
  normal (finish false m1 e1) = true \/ finish false m1 e1 = S754_infinity false.
Proof.
  intros Hm He. unfold finish, overflow_check, emax, prec.
  destruct (Z.eqb_spec m1 (2 ^ 53)).
  - destruct (Z.leb_spec (e1 + 1) (1024 - 53)); [left | right; reflexivity].
    apply normal_intro; [rewrite Z2Pos.id by reflexivity; split; [lia | reflexivity] | lia].
  - destruct (Z.leb_spec e1 (1024 - 53)); [left | right; reflexivity].
    apply normal_intro; [rewrite Z2Pos.id by lia; lia | lia].
Qed.

Lemma fmul_normal_or_inf (a c : spec_float) :
  normal a = true -> normal c = true ->
  (forall ma ea mc ec, a = S754_finite false ma ea -> c = S754_finite false mc ec ->
                       -1126 <= ea + ec) ->
  normal (fmul a c) = true \/ fmul a c = S754_infinity false.
Proof.
  intros Ha Hc HE.
  destruct (normal_inv a Ha) as (ma & ea & -> & Hma & Hea).
  destruct (normal_inv c Hc) as (mc & ec & -> & Hmc & Hec).
  specialize (HE ma ea mc ec eq_refl eq_refl).
  rewrite (fmul_spec ma mc ea ec Hma Hmc HE).
  destruct (digits_of_product ma mc Hma Hmc) as [HM HD].
  apply finish_normal_or_inf; [|lia].
  apply rne_range; [lia|]. apply digits2_pos_bounds.
Qed.

Lemma normal_le_inv (ma ma' : positive) (ea ea' : Z) :
  2 ^ 52 <= Zpos ma < 2 ^ 53 -> 2 ^ 52 <= Zpos ma' < 2 ^ 53 ->
  fleb (S754_finite false ma ea) (S754_finite false ma' ea') = true ->
  0 <= ea' - ea /\ Zpos ma <= Zpos ma' * 2 ^ (ea' - ea).
Proof.
  intros Ha Ha' Hle. apply fleb_finite in Hle.
  destruct Hle as [Hlt | [-> Hm]].
  - split; [lia|].
    assert (2 ^ 1 <= 2 ^ (ea' - ea)) by (apply Z.pow_le_mono_r; lia).
    change (2 ^ 1) with 2 in *. change (2 ^ 53) with (2 * 2 ^ 52) in *. nia.
  - rewrite Z.sub_diag. change (2 ^ 0) with 1. lia.
Qed.

Lemma fmul_mono_finite (ma ma' mc mc' : positive) (ea ea' ec ec' : Z) :
  2 ^ 52 <= Zpos ma < 2 ^ 53 -> 2 ^ 52 <= Zpos ma' < 2 ^ 53 ->
  2 ^ 52 <= Zpos mc < 2 ^ 53 -> 2 ^ 52 <= Zpos mc' < 2 ^ 53 ->
  -1126 <= ea + ec ->
  fleb (S754_finite false ma ea) (S754_finite false ma' ea') = true ->
  fleb (S754_finite false mc ec) (S754_finite false mc' ec') = true ->
  fleb (fmul (S754_finite false ma ea) (S754_finite false mc ec))
       (fmul (S754_finite false ma' ea') (S754_finite false mc' ec')) = true.
Proof.
  intros Ha Ha' Hc Hc' HE Hla Hlc.
  destruct (normal_le_inv ma ma' ea ea' Ha Ha' Hla) as [Hda Hma].
  destruct (normal_le_inv mc mc' ec ec' Hc Hc' Hlc) as [Hdc Hmc].
  rewrite (fmul_spec ma mc ea ec Ha Hc HE).
  rewrite (fmul_spec ma' mc' ea' ec' Ha' Hc' ltac:(lia)).
  destruct (digits_of_product ma mc Ha Hc) as [HM HD].
  destruct (digits_of_product ma' mc' Ha' Hc') as [HM' HD'].
  pose proof (digits2_pos_bounds (ma * mc)) as HB.
  pose proof (digits2_pos_bounds (ma' * mc')) as HB'.
  set (M := Zpos (ma * mc)) in *. set (M' := Zpos (ma' * mc')) in *.
  set (D := Zpos (digits2_pos (ma * mc))) in *.
  set (D' := Zpos (digits2_pos (ma' * mc'))) in *.
  set (delta := (ea' - ea) + (ec' - ec)).
  assert (Hprod : M <= M' * 2 ^ delta).
  { unfold M, M', delta. rewrite !Pos2Z.inj_mul, Z.pow_add_r by lia.
    transitivity ((Z.pos ma' * 2 ^ (ea' - ea)) * (Z.pos mc' * 2 ^ (ec' - ec))).
    - apply Z.mul_le_mono_nonneg; [lia | exact Hma | lia | exact Hmc].
    - apply Z.eq_le_incl. ring. }
  apply finish_le.
  - apply rne_range; [lia | exact HB].
  - apply rne_range; [lia | exact HB'].
  - destruct (Z.eq_dec delta 0) as [H0 | Hn0].
    + rewrite H0 in Hprod. change (2 ^ 0) with 1 in Hprod.
      assert (HDD : D <= D').
      { assert (D - 1 < D') by (apply (Z.pow_lt_mono_r_iff 2); lia). lia. }
      destruct (Z.eq_dec D D') as [HeqD | HneD].
      * right. split; [lia|]. rewrite <- HeqD. apply rne_mono; lia.
      * left. lia.
    + destruct (Z.eq_dec delta 1) as [H1 | Hn1].
      * rewrite H1 in Hprod. change (2 ^ 1) with 2 in Hprod.
        destruct (Z.eq_dec D' (D - 1)) as [HeqD | HneD].
        -- right. split; [lia|].
           replace (D - 53) with ((D' - 53) + 1) by lia.
           rewrite <- (rne_double M' (D' - 53)) by lia.
           apply rne_mono; lia.
        -- left. lia.
      * left. unfold delta in *. lia.
Qed.

Lemma fmul_mono (a a' c c' : spec_float) :
  normal a = true -> normal a' = true -> normal c = true -> normal c' = true ->
  (forall ma ea mc ec, a = S754_finite false ma ea -> c = S754_finite false mc ec ->
                       -1126 <= ea + ec) ->
  fleb a a' = true -> fleb c c' = true ->
  fleb (fmul a c) (fmul a' c') = true.
Proof.
  intros Ha Ha' Hc Hc' HE Hla Hlc.
  destruct (normal_inv a Ha) as (ma & ea & -> & Hma & Hea).
  destruct (normal_inv a' Ha') as (ma' & ea' & -> & Hma' & Hea').
  destruct (normal_inv c Hc) as (mc & ec & -> & Hmc & Hec).
  destruct (normal_inv c' Hc') as (mc' & ec' & -> & Hmc' & Hec').
  apply fmul_mono_finite; try assumption.
  apply (HE ma ea mc ec); reflexivity.
Qed.

Lemma Zpos_iter_xO (m d : positive) :
  Zpos (Pos.iter xO m d) = Zpos m * 2 ^ Zpos d.
Proof.
  induction d as [|d IH] using Pos.peano_ind.
  - cbn [Pos.iter]. change (2 ^ 1) with 2. lia.
  - rewrite Pos.iter_succ. change (Zpos (Pos.iter xO m d)~0) with (2 * Zpos (Pos.iter xO m d)).
    rewrite IH, Pos2Z.inj_succ, Z.pow_succ_r by lia. lia.
Qed.

Lemma unit_interval_inv (r : spec_float) :
  unit_interval r = true ->
  (exists s, r = S754_zero s) \/
  (exists m e, r = S754_finite false m e /\
               -1074 <= e <= -53 /\ Zpos m < 2 ^ 53 /\
               valid r = true).
Proof.
  unfold unit_interval. intros H.
  apply andb_prop in H. destruct H as [H Hlt].
  apply andb_prop in H. destruct H as [Hv Hle].
  destruct r as [s|s| |s m e].
  - left. exists s. reflexivity.
  - destruct s; [discriminate Hle | discriminate Hlt].
  - discriminate Hle.
  - destruct s; [discriminate Hle|].
    right. exists m, e. split; [reflexivity|].
    pose proof Hv as Hv'.
    unfold valid, valid_binary, bounded, canonical_mantissa in Hv.
    apply andb_prop in Hv. destruct Hv as [Hcan Hbnd].
    apply Z.eqb_eq in Hcan. apply Z.leb_le in Hbnd.
    pose proof (digits2_pos_bounds m) as Hd.
    set (dm := Zpos (digits2_pos m)) in *.
    assert (Hdm : dm <= 53 /\ -1074 <= e).
    { unfold fexp, emin, prec, emax in Hcan. lia. }
    assert (Hm : Zpos m < 2 ^ 53).
    { destruct Hd as [_ Hd]. eapply Z.lt_le_trans; [exact Hd|].
      apply Z.pow_le_mono_r; lia. }
    assert (He : e <= -53).
    { change (float_of_Z 1) with (S754_finite false 4503599627370496 (-52)) in Hlt.
      unfold fltb, SFltb, SFcompare in Hlt.
      destruct (Z.compare_spec e (-52)) as [He | He | He].
      - exfalso. subst e.
        destruct (Pos.compare_cont Eq m 4503599627370496) eqn:Hc;
          try discriminate Hlt.
        assert (Hc' : (m ?= 4503599627370496)%positive = Lt) by exact Hc.
        clear Hc. apply Pos.compare_lt_iff in Hc'. rename Hc' into Hc.
        assert (Hdm53 : dm = 53).
        { clear - Hcan Hdm. unfold fexp, emin, prec, emax in Hcan. lia. }
        assert (H52 : 2 ^ 52 <= Zpos m).
        { destruct Hd as [Hd _]. rewrite Hdm53 in Hd. exact Hd. }
        apply Pos2Z.pos_lt_pos in Hc.
        change (Zpos 4503599627370496) with (2 ^ 52) in Hc.
        clear - Hc H52. lia.
      - clear - He. lia.
      - discriminate Hlt. }
    split; [split; [apply Hdm | exact He]|].
    split; [exact Hm | exact Hv'].
Qed.

Lemma fmul_one_l (x : spec_float) :
  valid x = true -> fmul (float_of_Z 1) x = x.
Proof.
  intros Hx.
  destruct x as [s|s| |s m e]; try reflexivity.
  unfold valid, valid_binary, bounded, canonical_mantissa in Hx.
  apply andb_prop in Hx. destruct Hx as [Hcan Hle].
  apply Z.eqb_eq in Hcan.
  change (float_of_Z 1) with (S754_finite false 4503599627370496 (-52)).
  unfold fmul, SFmul. cbn [xorb].
  change (4503599627370496 * m)%positive with (Nat.iter 52 xO m).
  unfold binary_round_aux, shr_fexp.
  cbn [Zdigits2].
  assert (Hdig : Zpos (digits2_pos (Nat.iter 52 xO m)) = Zpos (digits2_pos m) + 52).
  { rewrite digits2_pos_shift. reflexivity. }
  rewrite Hdig.
  replace (Z.pos (digits2_pos m) + 52 + (-52 + e))
    with (Z.pos (digits2_pos m) + e) by lia.
  rewrite Hcan.
  replace (e - (-52 + e)) with 52 by lia.
  change (shr (shr_record_of_loc (Z.pos (Nat.iter 52 xO m)) loc_Exact) (-52 + e) 52)
    with ({| shr_m := Z.pos m; shr_r := false; shr_s := false |}, -52 + e + 52).
  cbn [shr_m loc_of_shr_record round_nearest_even Zdigits2].
  replace (-52 + e + 52) with e by lia.
  rewrite Hcan, Z.sub_diag. cbn [shr shr_record_of_loc shr_m].
  rewrite Hle. reflexivity.
Qed.

(** The jitter factor [1 + True * r] is a normal float between 1.0 and 2.0. *)
Lemma jitter_factor_range (r : spec_float) :
  unit_interval r = true ->
  let f := fadd (float_of_Z 1) (fmul (float_of_Z 1) r) in
  normal f = true /\ fleb (float_of_Z 1) f = true /\ fleb f (float_of_Z 2) = true.
Proof.
  intros Hr f. unfold f.
  destruct (unit_interval_inv r Hr) as [[s ->] | (m & e & -> & He & Hm & Hv)].
  - destruct s; repeat split; reflexivity.
  - rewrite (fmul_one_l _ Hv).
    change (float_of_Z 1) with (S754_finite false 4503599627370496 (-52)).
    unfold fadd, SFadd. cbn [cond_Zopp].
    replace (Z.min (-52) e) with e by lia.
    assert (Hs1 : shl_align 4503599627370496%positive (-52) e =
                  (Pos.iter xO 4503599627370496%positive (Z.to_pos (- (e + 52))), e)).
    { unfold shl_align. destruct (e - -52) as [|p|p] eqn:Hd; try lia.
      f_equal. f_equal. lia. }
    assert (Hs2 : shl_align m e e = (m, e)).
    { unfold shl_align. rewrite Z.sub_diag. reflexivity. }
    rewrite Hs1, Hs2. cbn [fst].
    set (A := Pos.iter xO 4503599627370496%positive (Z.to_pos (- (e + 52)))).
    assert (HA : Zpos A = 2 ^ (- e)).
    { unfold A. rewrite Zpos_iter_xO, Z2Pos.id by lia.
      change (Zpos 4503599627370496) with (2 ^ 52).
      rewrite <- Z.pow_add_r by lia. f_equal. lia. }
    change (Z.pos A + Z.pos m) with (Zpos (A + m)).
    cbn [binary_normalize]. unfold binary_round.
    assert (HS : 2 ^ (- e) <= Zpos (A + m) < 2 ^ (1 - e)).
    { rewrite Pos2Z.inj_add, HA.
      replace (1 - e) with (Z.succ (- e)) by lia. rewrite Z.pow_succ_r by lia.
      assert (2 ^ 53 <= 2 ^ (- e)) by (apply Z.pow_le_mono_r; lia). lia. }
    assert (HD : Zpos (digits2_pos (A + m)) = 1 - e).
    { apply digits2_pos_unique. replace (1 - e - 1) with (- e) by lia. exact HS. }
    rewrite HD.
    assert (Hal : shl_align (A + m) e (fexp prec emax (1 - e + e)) = ((A + m)%positive, e)).
    { unfold shl_align, fexp, emin, prec, emax.
      destruct (Z.max (1 - e + e - 53) (3 - 1024 - 53) - e) as [|p|p] eqn:Hd;
        try reflexivity. lia. }
    rewrite Hal.
    rewrite binary_round_aux_normal by (rewrite HD; unfold emax, prec; lia).
    rewrite HD.
    replace (e + (1 - e) - 53) with (-52) by lia.
    pose proof (rne_range (Zpos (A + m)) (1 - e) ltac:(lia)
                  ltac:(replace (1 - e - 1) with (- e) by lia; exact HS)) as Hrange.
    set (m1 := rne (Zpos (A + m)) (1 - e - 53)) in *.
    unfold finish, overflow_check, emax, prec.
    destruct (Z.eqb_spec m1 (2 ^ 53)) as [Heq | Hne].
    + repeat split; reflexivity.
    + change (-52 <=? 1024 - 53) with true. cbv iota.
      assert (Hm1 : 2 ^ 52 <= Zpos (Z.to_pos m1) < 2 ^ 53)
        by (rewrite Z2Pos.id by lia; lia).
      split; [apply normal_intro; [exact Hm1 | lia]|].
      split.
      * apply fleb_finite. right. split; [reflexivity|].
        change (Zpos 4503599627370496) with (2 ^ 52). apply Hm1.
      * change (float_of_Z 2) with (S754_finite false 4503599627370496 (-51)).
        apply fleb_finite. left. lia.
Qed.

Lemma ldexp_normal (m : positive) (e k : Z) :
  2 ^ 52 <= Zpos m < 2 ^ 53 -> -1074 <= e -> 0 <= k ->
  ldexp (S754_finite false m e) k = overflow_check false (Zpos m) (e + k).
Proof.
  intros Hm He Hk.
  assert (HD : Zpos (digits2_pos m) = 53).
  { apply digits2_pos_unique. change (2 ^ (53 - 1)) with (2 ^ 52). exact Hm. }
  unfold ldexp, SFldexp, binary_round. rewrite HD.
  assert (Hal : shl_align m (e + k) (fexp prec emax (53 + (e + k))) = (m, e + k)).
  { unfold shl_align, fexp, emin, prec, emax.
    destruct (Z.max (53 + (e + k) - 53) (3 - 1024 - 53) - (e + k)) as [|p|p] eqn:Hd;
      try reflexivity. lia. }
  rewrite Hal.
  rewrite binary_round_aux_normal by (rewrite HD; unfold emax, prec; lia).
  rewrite HD. replace (53 - 53) with 0 by lia.
  replace (e + k + 53 - 53) with (e + k) by lia.
  assert (Hr : rne (Zpos m) 0 = Zpos m).
  { unfold rne. change (2 ^ 0) with 1. rewrite Z.div_1_r, Z.mod_1_r. reflexivity. }
  rewrite Hr. unfold finish.
  destruct (Z.eqb_spec (Zpos m) (2 ^ 53)); [lia | reflexivity].
Qed.

End Float64Rounding.

(** ** Order and scaling of normal numbers *)

Section Float64Order.

Import Binary64.

Lemma normal_valid (x : float) : normal x = true -> valid x = true.
Proof.
  intros Hx. destruct (normal_inv x Hx) as (m & e & -> & Hm & He).
  unfold valid, valid_binary, bounded, canonical_mantissa.
  rewrite (digits2_pos_unique m 53) by (change (2 ^ (53 - 1)) with (2 ^ 52); lia).
  apply andb_true_intro. split.
  - apply Z.eqb_eq. unfold fexp, emin, prec, emax. lia.
  - apply Z.leb_le. unfold prec, emax. lia.
Qed.

Lemma normal_is_finite (x : float) : normal x = true -> is_finite x = true.
Proof.
  intros Hx. destruct (normal_inv x Hx) as (m & e & -> & _). reflexivity.
Qed.

Lemma normal_exponent (x : float) :
  normal x = true -> -1074 <= exponent x <= 971.
Proof.
  intros Hx. destruct (normal_inv x Hx) as (m & e & -> & _ & He). exact He.
Qed.

Lemma fleb_refl_normal (x : float) : normal x = true -> fleb x x = true.
Proof.
  intros Hx. destruct (normal_inv x Hx) as (m & e & -> & _).
  apply fleb_finite. right. split; [reflexivity | lia].
Qed.

Lemma fleb_trans_normal (x y z : float) :
  normal x = true -> normal y = true -> normal z = true ->
  fleb x y = true -> fleb y z = true -> fleb x z = true.
Proof.
  intros Hx Hy Hz.
  destruct (normal_inv x Hx) as (mx & ex & -> & _).
  destruct (normal_inv y Hy) as (my & ey & -> & _).
  destruct (normal_inv z Hz) as (mz & ez & -> & _).
  rewrite !fleb_finite. lia.
Qed.

Lemma fleb_exponent (x y : float) :
  normal x = true -> normal y = true -> fleb x y = true ->
  exponent x <= exponent y.
Proof.
  intros Hx Hy.
  destruct (normal_inv x Hx) as (mx & ex & -> & _).
  destruct (normal_inv y Hy) as (my & ey & -> & _).
  rewrite fleb_finite. cbn [exponent]. lia.
Qed.

Lemma fleb_inf_r (x : float) :
  normal x = true \/ x = S754_infinity false ->
  fleb x (S754_infinity false) = true.
Proof.
  intros [Hx | ->]; [|reflexivity].
  destruct (normal_inv x Hx) as (m & e & -> & _). reflexivity.
Qed.

(** Below a finite number there is no infinity. *)
Lemma le_finite_normal (x y : float) :
  normal x = true \/ x = S754_infinity false ->
  is_finite y = true -> fleb x y = true -> normal x = true.
Proof.
  intros [Hx | ->] Hy Hle; [exact Hx|].
  destruct y as [s|s| |s m e]; try discriminate Hy; discriminate Hle.
Qed.

Lemma fleb_trans (x y z : float) :
  normal x = true \/ x = S754_infinity false ->
  normal y = true \/ y = S754_infinity false ->
  normal z = true \/ z = S754_infinity false ->
  fleb x y = true -> fleb y z = true -> fleb x z = true.
Proof.
  intros Hx Hy [Hz | ->] Hxy Hyz; [|apply fleb_inf_r; exact Hx].
  assert (Hy' : normal y = true)
    by (apply (le_finite_normal y z Hy (normal_is_finite z Hz) Hyz)).
  assert (Hx' : normal x = true)
    by (apply (le_finite_normal x y Hx (normal_is_finite y Hy') Hxy)).
  apply (fleb_trans_normal x y z); assumption.
Qed.

Lemma fmul_inf_l (c : float) :
  normal c = true -> fmul (S754_infinity false) c = S754_infinity false.
Proof.
  intros Hc. destruct (normal_inv c Hc) as (m & e & -> & _). reflexivity.
Qed.

(** Multiplication of normal numbers is monotone, and gives a normal number
    or overflows, as long as the smaller product does not underflow. *)
Lemma fmul_le (a a' c c' : float) :
  normal a = true -> normal a' = true -> normal c = true -> normal c' = true ->
  -1126 <= exponent a + exponent c ->
  fleb a a' = true -> fleb c c' = true ->
  fleb (fmul a c) (fmul a' c') = true.
Proof.
  intros Ha Ha' Hc Hc' HE. apply fmul_mono; try assumption.
  intros ma ea mc ec -> ->. exact HE.
Qed.

Lemma fmul_normal (a c : float) :
  normal a = true -> normal c = true ->
  -1126 <= exponent a + exponent c ->
  normal (fmul a c) = true \/ fmul a c = S754_infinity false.
Proof.
  intros Ha Hc HE. apply fmul_normal_or_inf; try assumption.
  intros ma ea mc ec -> ->. exact HE.
Qed.

Lemma ldexp_finite (x : float) (k : Z) :
  normal x = true -> 0 <= k -> is_finite (ldexp x k) = true ->
  normal (ldexp x k) = true /\ exponent (ldexp x k) = exponent x + k.
Proof.
  intros Hx Hk. destruct (normal_inv x Hx) as (m & e & -> & Hm & He).
  rewrite (ldexp_normal m e k Hm ltac:(lia) Hk).
  unfold overflow_check, emax, prec.
  destruct (Z.leb_spec (e + k) (1024 - 53)); [|discriminate].
  intros _. rewrite Pos2Z.id. split; [|reflexivity].
  apply normal_intro; lia.
Qed.

Lemma ldexp_0 (x : float) : normal x = true -> ldexp x 0 = x.
Proof.
  intros Hx. destruct (normal_inv x Hx) as (m & e & -> & Hm & He).
  rewrite (ldexp_normal m e 0 Hm ltac:(lia) ltac:(lia)).
  unfold overflow_check, emax, prec. rewrite Z.add_0_r.
  destruct (Z.leb_spec e (1024 - 53)); [|lia].
  rewrite Pos2Z.id. reflexivity.
Qed.

Lemma ldexp_finite_mono (x y : float) (j k : Z) :
  normal x = true -> normal y = true -> fleb x y = true ->
  0 <= j <= k -> is_finite (ldexp y k) = true ->
  is_finite (ldexp x j) = true.
Proof.
  intros Hx Hy Hle Hjk Hfin.
  pose proof (fleb_exponent x y Hx Hy Hle) as He.
  destruct (ldexp_finite y k Hy ltac:(lia) Hfin) as [Hn Hey].
  pose proof (normal_exponent _ Hn) as Hr. rewrite Hey in Hr.
  destruct (normal_inv x Hx) as (m & e & -> & Hm & Hex).
  cbn [exponent] in He.
  rewrite (ldexp_normal m e j Hm ltac:(lia) ltac:(lia)).
  unfold overflow_check, emax, prec.
  destruct (Z.leb_spec (e + j) (1024 - 53)); [reflexivity | lia].
Qed.

Lemma finish_shift (m1 e1 k : Z) :
  2 ^ 52 <= m1 <= 2 ^ 53 -> -1074 <= e1 -> 0 <= k ->
  ldexp (finish false m1 e1) k = finish false m1 (e1 + k).
Proof.
  intros Hm He Hk. unfold finish.
  assert (Hoc : forall m e, 2 ^ 52 <= m < 2 ^ 53 -> -1074 <= e ->
                  ldexp (overflow_check false m e) k = overflow_check false m (e + k)).
  { intros m e Hmm Hee. unfold overflow_check at 1. unfold emax, prec.
    destruct (Z.leb_spec e (1024 - 53)) as [Hle | Hgt].
    - rewrite ldexp_normal by (rewrite ?Z2Pos.id by lia; lia).
      rewrite Z2Pos.id by lia. reflexivity.
    - unfold overflow_check, emax, prec.
      destruct (Z.leb_spec (e + k) (1024 - 53)); [lia | reflexivity]. }
  destruct (Z.eqb_spec m1 (2 ^ 53)).
  - rewrite Hoc by (try split; try reflexivity; lia).
    f_equal. lia.
  - apply Hoc; lia.
Qed.

(** Scaling by powers of two commutes with multiplication. *)
Lemma fmul_ldexp (a c : float) (p q : Z) :
  normal a = true -> normal c = true ->
  -1126 <= exponent a + exponent c ->
  0 <= p -> 0 <= q ->
  is_finite (ldexp a p) = true -> is_finite (ldexp c q) = true ->
  fmul (ldexp a p) (ldexp c q) = ldexp (fmul a c) (p + q).
Proof.
  intros Ha Hc HE Hp Hq Hfa Hfc.
  destruct (ldexp_finite a p Ha Hp Hfa) as [Hna Hea].
  destruct (ldexp_finite c q Hc Hq Hfc) as [Hnc Hec].
  pose proof (normal_exponent _ Hna) as Hra.
  pose proof (normal_exponent _ Hnc) as Hrc.
  destruct (normal_inv a Ha) as (ma & ea & -> & Hma & Hea').
  destruct (normal_inv c Hc) as (mc & ec & -> & Hmc & Hec').
  cbn [exponent] in *.
  rewrite (ldexp_normal ma ea p Hma ltac:(lia) Hp).
  rewrite (ldexp_normal mc ec q Hmc ltac:(lia) Hq).
  unfold overflow_check at 1 2. unfold emax, prec.
  destruct (Z.leb_spec (ea + p) (1024 - 53)); [|lia].
  destruct (Z.leb_spec (ec + q) (1024 - 53)); [|lia].
  rewrite !Pos2Z.id.
  rewrite (fmul_spec ma mc (ea + p) (ec + q) Hma Hmc ltac:(lia)).
  rewrite (fmul_spec ma mc ea ec Hma Hmc HE).
  destruct (digits_of_product ma mc Hma Hmc) as [_ HD].
  rewrite finish_shift;
    [f_equal; lia
    | apply rne_range; [lia | apply digits2_pos_bounds]
    | lia | lia].
Qed.

End Float64Order.

(** ** Jittered delays in binary64 *)

Section Float64Jitter.

Import Binary64.

Context {R A T : Type}.

Lemma delays_lookup_0 (b : float) jitter (rand : nat -> float) c u n :
  delays b jitter rand c u (S n) !! O = Some (increment_delay u b jitter (rand c)).
Proof. reflexivity. Qed.

Lemma delays_lookup_S (b : float) jitter (rand : nat -> float) c u n k :
  delays b jitter rand c u (S n) !! S k =
  delays b jitter rand (S c) (increment_delay u b jitter (rand c)) n !! k.
Proof. reflexivity. Qed.

Variable base : float.
Hypothesis base_normal : normal base = true.
Hypothesis base_ge_1 : fleb (float_of_Z 1) base = true.

Lemma base_exponent : -52 <= exponent base.
Proof.
  apply (fleb_exponent (float_of_Z 1) base eq_refl base_normal base_ge_1).
Qed.

Lemma increment_delay_plain (u r : float) :
  unit_interval r = true ->
  increment_delay u base false r = fmul u base.
Proof.
  intros Hr. apply increment_delay_no_jitter; [|exact Hr].
  apply normal_valid, base_normal.
Qed.

(** The factor by which a failure multiplies the delay when jitter is on:
    between [base] and [2 * base]. *)
Lemma growth_factor_range (r : float) :
  is_finite (ldexp base 1) = true ->
  unit_interval r = true ->
  normal (fmul base (fadd (float_of_Z 1) (fmul (float_of_Z 1) r))) = true /\
  fleb base (fmul base (fadd (float_of_Z 1) (fmul (float_of_Z 1) r))) = true /\
  fleb (fmul base (fadd (float_of_Z 1) (fmul (float_of_Z 1) r))) (ldexp base 1)
  = true.
Proof.
  intros Hfin Hr.
  destruct (jitter_factor_range r Hr) as (Hnf & Hf1 & Hf2).
  set (f := fadd (float_of_Z 1) (fmul (float_of_Z 1) r)) in *.
  pose proof base_exponent as Hb.
  assert (Hlow : fleb base (fmul base f) = true).
  { rewrite <- (fmul_one_r base (normal_valid _ base_normal)) at 1.
    apply fmul_le; try assumption; try reflexivity.
    - change (exponent (float_of_Z 1)) with (-52). lia.
    - apply fleb_refl_normal, base_normal. }
  assert (Hhigh : fleb (fmul base f) (ldexp base 1) = true).
  { assert (Htwo : fmul base (float_of_Z 2) = ldexp base 1).
    { rewrite <- (ldexp_0 base base_normal) at 1.
      change (float_of_Z 2) with (ldexp (float_of_Z 1) 1).
      rewrite fmul_ldexp; try assumption; try reflexivity; try lia.
      - rewrite (fmul_one_r base (normal_valid _ base_normal)). reflexivity.
      - change (exponent (float_of_Z 1)) with (-52). lia.
      - rewrite (ldexp_0 base base_normal). apply normal_is_finite, base_normal. }
    rewrite <- Htwo.
    apply fmul_le; try assumption; try reflexivity.
    - pose proof (fleb_exponent (float_of_Z 1) f eq_refl Hnf Hf1) as He.
      change (exponent (float_of_Z 1)) with (-52) in He. lia.
    - apply fleb_refl_normal, base_normal. }
  split; [|split; assumption].
  apply (le_finite_normal _ (ldexp base 1)); [|exact Hfin | exact Hhigh].
  apply fmul_normal; try assumption.
  pose proof (fleb_exponent (float_of_Z 1) f eq_refl Hnf Hf1) as He.
  change (exponent (float_of_Z 1)) with (-52) in He. lia.
Qed.

Lemma increment_delay_jitter (u r : float) :
  increment_delay u base true r =
  fmul u (fmul base (fadd (float_of_Z 1) (fmul (float_of_Z 1) r))).
Proof. reflexivity. Qed.

(** One failure, without jitter: the delay does not shrink, and is normal
    unless it overflows. *)
Lemma plain_step (u r : float) :
  unit_interval r = true ->
  normal u = true \/ u = S754_infinity false ->
  (normal (increment_delay u base false r) = true \/
   increment_delay u base false r = S754_infinity false) /\
  fleb u (increment_delay u base false r) = true.
Proof.
  intros Hr Hu. rewrite (increment_delay_plain u r Hr).
  pose proof base_exponent as Hb.
  destruct Hu as [Hu | ->].
  - pose proof (normal_exponent u Hu) as He.
    split.
    + apply fmul_normal; try assumption. lia.
    + rewrite <- (fmul_one_r u (normal_valid _ Hu)) at 1.
      apply fmul_le; try assumption; try reflexivity.
      * change (exponent (float_of_Z 1)) with (-52). lia.
      * apply fleb_refl_normal, Hu.
  - rewrite (fmul_inf_l base base_normal). split; [right|]; reflexivity.
Qed.

Variable rand : nat -> float.
Hypothesis rand_unit : forall i, unit_interval (rand i) = true.

(** Without jitter, a finite delay is preceded by normal, smaller ones. *)
Lemma plain_delays_normal (k n c : nat) (u v : float) :
  normal u = true \/ u = S754_infinity false ->
  delays base false rand c u n !! k = Some v ->
  is_finite v = true ->
  normal u = true /\ normal v = true /\ fleb u v = true.
Proof.
  revert n c u v.
  induction k as [|k IH]; intros n c u v Hu Hv Hfin;
    destruct n as [|n]; try discriminate Hv;
    destruct (plain_step u (rand c) (rand_unit c) Hu) as [Hv0 Hle].
  - rewrite delays_lookup_0 in Hv.
    apply (inj Some) in Hv. subst v.
    assert (Hnv : normal (increment_delay u base false (rand c)) = true).
    { destruct Hv0 as [Hn | Hinf]; [exact Hn|]. rewrite Hinf in Hfin. discriminate. }
    split; [|split; assumption].
    apply (le_finite_normal u _ Hu Hfin Hle).
  - rewrite delays_lookup_S in Hv.
    destruct (IH n (S c) _ v Hv0 Hv Hfin) as (Hn0 & Hnv & Hle0).
    assert (Hnu : normal u = true)
      by (apply (le_finite_normal u _ Hu (normal_is_finite _ Hn0) Hle)).
    split; [exact Hnu|]. split; [exact Hnv|].
    apply (fleb_trans_normal u (increment_delay u base false (rand c)) v);
      assumption.
Qed.

Hypothesis twice_base_finite : is_finite (ldexp base 1) = true.

(** One failure, with jitter against without: when the jittered delay [dt]
    lies between the plain delay [df] and [2^p * df], the next jittered
    delay lies between the next plain delay and [2^(p+1)] times it. *)
Lemma jitter_step (r dt df : float) (p : Z) :
  unit_interval r = true ->
  normal df = true -> normal dt = true ->
  0 <= p ->
  fleb df dt = true ->
  is_finite (ldexp df p) = true ->
  fleb dt (ldexp df p) = true ->
  is_finite (ldexp (increment_delay df base false r) (p + 1)) = true ->
  normal (increment_delay df base false r) = true /\
  normal (increment_delay dt base true r) = true /\
  fleb (increment_delay df base false r) (increment_delay dt base true r) = true /\
  fleb (increment_delay dt base true r)
       (ldexp (increment_delay df base false r) (p + 1)) = true.
Proof.
  intros Hr Hdf Hdt Hp Hle Hfp Hup Hfin.
  rewrite (increment_delay_plain df r Hr) in *.
  rewrite increment_delay_jitter.
  destruct (growth_factor_range r twice_base_finite Hr) as (Hng & Hbg & Hg2).
  set (g := fmul base (fadd (float_of_Z 1) (fmul (float_of_Z 1) r))) in *.
  pose proof base_exponent as Hb.
  pose proof (normal_exponent df Hdf) as Hedf.
  pose proof (normal_exponent dt Hdt) as Hedt.
  pose proof (fleb_exponent base g base_normal Hng Hbg) as Heg.
  assert (Hv0 : normal (fmul df base) = true).
  { destruct (fmul_normal df base Hdf base_normal ltac:(lia)) as [Hn | Hinf];
      [exact Hn|].
    rewrite Hinf in Hfin. discriminate Hfin. }
  destruct (ldexp_finite df p Hdf Hp Hfp) as [Hndp _].
  destruct (ldexp_finite base 1 base_normal ltac:(lia) twice_base_finite) as [Hnb2 _].
  assert (Hlow : fleb (fmul df base) (fmul dt g) = true)
    by (apply fmul_le; try assumption; lia).
  assert (Hhigh : fleb (fmul dt g) (ldexp (fmul df base) (p + 1)) = true).
  { rewrite <- fmul_ldexp; try assumption; try lia.
    apply fmul_le; try assumption. lia. }
  split; [exact Hv0|]. split; [|split; assumption].
  apply (le_finite_normal _ (ldexp (fmul df base) (p + 1))); [|exact Hfin | exact Hhigh].
  apply fmul_normal; try assumption. lia.
Qed.

Lemma jittered_delays_bounds (k n n' c : nat) (dt df x v : float) (p : Z) :
  normal df = true -> normal dt = true ->
  0 <= p ->
  fleb df dt = true ->
  is_finite (ldexp df p) = true ->
  fleb dt (ldexp df p) = true ->
  delays base true rand c dt n !! k = Some x ->
  delays base false rand c df n' !! k = Some v ->
  is_finite (ldexp v (p + Z.of_nat (S k))) = true ->
  fleb v x = true /\ fleb x (ldexp v (p + Z.of_nat (S k))) = true.
Proof.
  revert n n' c dt df x v p.
  induction k as [|k IH]; intros n n' c dt df x v p Hdf Hdt Hp Hle Hfp Hup Hx Hv Hfin;
    destruct n as [|n]; try discriminate Hx;
    destruct n' as [|n']; try discriminate Hv.
  - rewrite delays_lookup_0 in Hx, Hv.
    apply (inj Some) in Hx. apply (inj Some) in Hv. subst x v.
    change (Z.of_nat 1) with 1 in *.
    destruct (jitter_step (rand c) dt df p (rand_unit c) Hdf Hdt Hp Hle Hfp Hup Hfin)
      as (_ & _ & Hlow & Hhigh).
    split; assumption.
  - rewrite delays_lookup_S in Hx, Hv.
    assert (Hvfin : is_finite v = true).
    { destruct v as [s|s| |s m e]; try reflexivity; discriminate Hfin. }
    destruct (plain_step df (rand c) (rand_unit c) (or_introl Hdf)) as [Hv0 _].
    destruct (plain_delays_normal k n' (S c) _ v Hv0 Hv Hvfin) as (Hn0 & Hnv & Hle0).
    assert (Hfin0 : is_finite (ldexp (increment_delay df base false (rand c)) (p + 1))
                    = true).
    { apply (ldexp_finite_mono _ v (p + 1) (p + Z.of_nat (S (S k)))); try assumption.
      lia. }
    destruct (jitter_step (rand c) dt df p (rand_unit c) Hdf Hdt Hp Hle Hfp Hup Hfin0)
      as (_ & Hnx0 & Hlow & Hhigh).
    replace (p + Z.of_nat (S (S k))) with ((p + 1) + Z.of_nat (S k)) in * by lia.
    apply (IH n n' (S c) (increment_delay dt base true (rand c))
             (increment_delay df base false (rand c)) x v (p + 1));
      try assumption. lia.
Qed.

(** With or without jitter, a failure never shortens the delay. *)
Lemma growth_step (jitter : bool) (u r : float) :
  unit_interval r = true ->
  normal u = true \/ u = S754_infinity false ->
  (normal (increment_delay u base jitter r) = true \/
   increment_delay u base jitter r = S754_infinity false) /\
  fleb u (increment_delay u base jitter r) = true.
Proof.
  intros Hr Hu. destruct jitter; [|apply plain_step; assumption].
  rewrite increment_delay_jitter.
  destruct (growth_factor_range r twice_base_finite Hr) as (Hng & Hbg & _).
  set (g := fmul base (fadd (float_of_Z 1) (fmul (float_of_Z 1) r))) in *.
  pose proof base_exponent as Hb.
  pose proof (fleb_exponent base g base_normal Hng Hbg) as Heg.
  assert (H1g : fleb (float_of_Z 1) g = true)
    by (apply (fleb_trans_normal _ base g); try assumption; reflexivity).
  destruct Hu as [Hu | ->].
  - pose proof (normal_exponent u Hu) as He.
    split.
    + apply fmul_normal; try assumption. lia.
    + rewrite <- (fmul_one_r u (normal_valid _ Hu)) at 1.
      apply fmul_le; try assumption; try reflexivity.
      * change (exponent (float_of_Z 1)) with (-52). lia.
      * apply fleb_refl_normal, Hu.
  - rewrite (fmul_inf_l g Hng). split; [right|]; reflexivity.
Qed.

Lemma delays_monotone (jitter : bool) (k n c : nat) (u x : float) :
  normal u = true \/ u = S754_infinity false ->
  delays base jitter rand c u n !! k = Some x ->
  (normal x = true \/ x = S754_infinity false) /\
  fleb u x = true /\
  forall y, delays base jitter rand c u n !! S k = Some y -> fleb x y = true.
Proof.
  revert n c u x.
  induction k as [|k IH]; intros n c u x Hu Hx;
    destruct n as [|n]; try discriminate Hx;
    destruct (growth_step jitter u (rand c) (rand_unit c) Hu) as [Hx0 Hle].
  - rewrite delays_lookup_0 in Hx.
    apply (inj Some) in Hx. subst x. split; [exact Hx0|]. split; [exact Hle|].
    intros y Hy. rewrite delays_lookup_S in Hy.
    destruct n as [|n]; try discriminate Hy.
    rewrite delays_lookup_0 in Hy. apply (inj Some) in Hy. subst y.
    apply growth_step; [apply rand_unit | exact Hx0].
  - rewrite delays_lookup_S in Hx.
    destruct (IH n (S c) _ x Hx0 Hx) as (Hnx & Hle0 & Hnext).
    split; [exact Hnx|]. split.
    + apply (fleb_trans u (increment_delay u base jitter (rand c)) x); assumption.
    + intros y Hy. rewrite delays_lookup_S in Hy. apply Hnext. exact Hy.
Qed.

(** A finite delay is preceded by finite ones: the sleeps before it have
    all returned. *)
Lemma delays_prefix_finite (jitter : bool) (k n c : nat) (u x : float) :
  normal u = true \/ u = S754_infinity false ->
  delays base jitter rand c u n !! k = Some x ->
  is_finite x = true ->
  all_finite (take (S k) (delays base jitter rand c u n)) = true.
Proof.
  revert n c u x.
  induction k as [|k IH]; intros n c u x Hu Hx Hfin;
    destruct n as [|n]; try discriminate Hx;
    destruct (growth_step jitter u (rand c) (rand_unit c) Hu) as [Hx0 Hle].
  - rewrite delays_lookup_0 in Hx. apply (inj Some) in Hx. subst x.
    cbn [delays]. rewrite firstn_cons, firstn_O.
    unfold all_finite. cbn [forallb]. rewrite Hfin. reflexivity.
  - rewrite delays_lookup_S in Hx.
    destruct (delays_monotone jitter k n (S c) _ x Hx0 Hx) as (_ & Hle0 & _).
    pose proof (le_finite_normal _ x Hx0 Hfin Hle0) as Hn0.
    pose proof (IH n (S c) _ x Hx0 Hx Hfin) as Hrest.
    cbn [delays]. rewrite firstn_cons.
    unfold all_finite in *. cbn [forallb].
    rewrite (normal_is_finite _ Hn0), Hrest. reflexivity.
Qed.

End Float64Jitter.

(** ** Calls whose sleeps all return

    The results below are about what a call returns or raises after it has
    slept, or about the whole of its events.  They are stated in binary64
    and for calls all of whose delays are finite: [initial_delay *=
    exponential_base * ...] reaches [+inf] from finite values, and the call
    never comes back from [await asyncio.sleep(inf)]. *)

Section Float64Runs.

Import Binary64.

Context {R A T : Type}.

Local Abbreviation Method := (Method float R A T).
Local Abbreviation World := (World float R).

(** C2: for every [max_retries = N >= 1], if the wrapped operation raises the
    rate-limit failure on each of its invocations, and the delays the call
    sleeps are all finite, the wrapper invokes the operation exactly [N]
    times and then raises the retry-exhausted error, whose cause is the
    failure raised by the [N]-th invocation. *)
Theorem exhausted_after_max_retries_attempts
    qualname (body : Method) N (d base : float) jitter self args (w : World) :
  1 <= N ->
  (forall i, (i < Z.to_nat N)%nat ->
             rate_limited (outcome body self args i (heap w))) ->
  all_finite (call_delays (retry_function_with_exponential_backoff
                             (Def qualname body) N d base jitter) self args w)
  = true ->
  exists e w',
    call (retry_function_with_exponential_backoff (Def qualname body) N d base jitter)
      self args w
    = (Raise (Exc RateLimitException "Rate limit error after max retries." (Some e)),
       w') /\
    outcome body self args (Z.to_nat N - 1) (heap w) = Raise e /\
    awaits (trace w') = (awaits (trace w) + Z.to_nat N)%nat /\
    heap w' = heap_after body self args (Z.to_nat N) (heap w).
Proof.
  intros HN Hfail _.
  destruct (call_exhausts qualname body N d base jitter self args w HN Hfail)
    as (e & w' & tr & Hrun & He & _ & Hheap & Htr & Haw & _).
  exists e, w'. repeat split; try assumption.
  rewrite Htr, awaits_app, Haw. reflexivity.
Qed.

(** C10: the error raised on exhaustion (by a call whose delays are all
    finite, of an operation that is rate limited every time) is itself an
    instance of [RateLimitException], the class the handler catches; it
    differs from a failure raised by the operation only in its message and in
    carrying a cause. *)
Theorem exhaustion_is_a_RateLimitException
    qualname (body : Method) N (d base : float) jitter self args (w : World) :
  1 <= N ->
  (forall i, (i < Z.to_nat N)%nat ->
             rate_limited (outcome body self args i (heap w))) ->
  all_finite (call_delays (retry_function_with_exponential_backoff
                             (Def qualname body) N d base jitter) self args w)
  = true ->
  exists x w',
    call (retry_function_with_exponential_backoff (Def qualname body) N d base jitter)
      self args w = (Raise x, w') /\
    exc_cls x = RateLimitException /\
    isinstance_RateLimitException x = true /\
    exc_message x = "Rate limit error after max retries."%string /\
    exists e, exc_cause x = Some e /\ isinstance_RateLimitException e = true.
Proof.
  intros HN Hfail _.
  destruct (call_exhausts qualname body N d base jitter self args w HN Hfail)
    as (e & w' & tr & Hrun & _ & Hcatch & _).
  exists (retry_exhausted e), w'.
  split; [exact Hrun|].
  repeat split. exists e. split; [reflexivity | exact Hcatch].
Qed.

(** C3: for every [max_retries = N >= 1] and [1 <= k <= N], if the first
    [k-1] invocations are rate limited, the delays slept after them are all
    finite, and the [k]-th invocation returns [v], the wrapper returns [v];
    the successful call is the last thing it does, it is the [k]-th call,
    and [k-1] sleeps precede it. *)
Theorem success_on_kth_attempt
    qualname (body : Method) N (d base : float) jitter self args (w : World)
    (k : nat) (v : T) :
  (1 <= k)%nat -> Z.of_nat k <= N ->
  (forall i, (i < k - 1)%nat -> rate_limited (outcome body self args i (heap w))) ->
  outcome body self args (k - 1) (heap w) = Return v ->
  all_finite (call_delays (retry_function_with_exponential_backoff
                             (Def qualname body) N d base jitter) self args w)
  = true ->
  exists w' tr,
    call (retry_function_with_exponential_backoff (Def qualname body) N d base jitter)
      self args w = (Return v, w') /\
    trace w' = trace w ++ tr ++ [EvAwait] /\
    awaits (tr ++ [EvAwait]) = k /\
    length (sleeps (tr ++ [EvAwait])) = (k - 1)%nat /\
    heap w' = heap_after body self args k (heap w).
Proof.
  intros Hk HkN Hfail Hv _.
  destruct (call_stops qualname body N d base jitter self args w (k - 1))
    as (w' & tr & Hrun & Hheap & Htr & Haw & Hsl).
  { lia. }
  { exact Hfail. }
  { rewrite Hv. intros (e & He & _). discriminate He. }
  exists w', tr. rewrite Hv in Hrun.
  replace (S (k - 1)) with k in Hheap by lia.
  repeat split; try assumption.
  - rewrite awaits_app, Haw. simpl. unfold awaits. simpl. lia.
  - rewrite sleeps_app, Hsl, length_app, length_delays. simpl. lia.
Qed.

(** C4: for every [max_retries = N >= 1], if some invocation (the [k]-th,
    the earlier ones having been rate limited and followed by finite
    delays) raises an exception [e] that is not a rate-limit failure, the
    wrapper raises [e] itself; the failing call is the last thing it does:
    no further call and no sleep follow. *)
Theorem other_failure_propagates
    qualname (body : Method) N (d base : float) jitter self args (w : World)
    (k : nat) (e : exception) :
  (1 <= k)%nat -> Z.of_nat k <= N ->
  (forall i, (i < k - 1)%nat -> rate_limited (outcome body self args i (heap w))) ->
  outcome body self args (k - 1) (heap w) = Raise e ->
  isinstance_RateLimitException e = false ->
  all_finite (call_delays (retry_function_with_exponential_backoff
                             (Def qualname body) N d base jitter) self args w)
  = true ->
  exists w' tr,
    call (retry_function_with_exponential_backoff (Def qualname body) N d base jitter)
      self args w = (Raise e, w') /\
    trace w' = trace w ++ tr ++ [EvAwait] /\
    awaits (tr ++ [EvAwait]) = k /\
    length (sleeps (tr ++ [EvAwait])) = (k - 1)%nat /\
    heap w' = heap_after body self args k (heap w).
Proof.
  intros Hk HkN Hfail He Hother _.
  destruct (call_stops qualname body N d base jitter self args w (k - 1))
    as (w' & tr & Hrun & Hheap & Htr & Haw & Hsl).
  { lia. }
  { exact Hfail. }
  { rewrite He. intros (e' & He' & Hcatch). injection He' as <-. congruence. }
  exists w', tr. rewrite He in Hrun.
  replace (S (k - 1)) with k in Hheap by lia.
  repeat split; try assumption.
  - rewrite awaits_app, Haw. simpl. unfold awaits. simpl. lia.
  - rewrite sleeps_app, Hsl, length_app, length_delays. simpl. lia.
Qed.

(** C7, as the code has it: the jitter factors compound.  In binary64, for
    a positive normal initial delay and base, a base of at least 1 whose
    double is finite, and draws in [[0, 1)], the delay [x] slept after the
    [k+1]-th failure of a call with jitter satisfies [v <= x <= 2^(k+1) * v],
    where [v] is the delay at the same point of the call without jitter,
    provided [2^(k+1) * v] is finite.  The upper bound is not strict.  The
    delays slept up to [x] are then all finite. *)
Theorem jittered_delay_within_compounded_factor
    qualname (body : Method) N (d base : float) self args (w : World)
    (k : nat) (x v : float) :
  normal d = true -> normal base = true ->
  fleb (float_of_Z 1) base = true ->
  is_finite (ldexp base 1) = true ->
  (forall i, unit_interval (random_source w i) = true) ->
  call_delays (retry_function_with_exponential_backoff
                 (Def qualname body) N d base true) self args w !! k = Some x ->
  call_delays (retry_function_with_exponential_backoff
                 (Def qualname body) N d base false) self args w !! k = Some v ->
  is_finite (ldexp v (Z.of_nat (S k))) = true ->
  fleb v x = true /\
  fleb x (ldexp v (Z.of_nat (S k))) = true /\
  all_finite (take (S k)
                (call_delays (retry_function_with_exponential_backoff
                                (Def qualname body) N d base true) self args w))
  = true.
Proof.
  intros Hd Hb Hb1 Hb2 Hrand Hx Hv Hfin.
  destruct (call_delays_spec qualname body N d base true self args w) as (n & _ & Ht).
  destruct (call_delays_spec qualname body N d base false self args w) as (n' & _ & Hf).
  rewrite Ht in *. rewrite Hf in Hv.
  destruct (jittered_delays_bounds base Hb Hb1 (random_source w) Hrand Hb2
              k n n' (drawn w) d d x v 0) as [Hl Hh]; try assumption.
  - lia.
  - apply fleb_refl_normal, Hd.
  - rewrite (ldexp_0 d Hd). apply normal_is_finite, Hd.
  - rewrite (ldexp_0 d Hd). apply fleb_refl_normal, Hd.
  - rewrite Z.add_0_l in Hh.
    split; [exact Hl|]. split; [exact Hh|].
    destruct (delays_monotone base Hb Hb1 (random_source w) Hrand Hb2
                true k n (drawn w) d x (or_introl Hd) Hx) as (Hnx & _ & _).
    apply (delays_prefix_finite base Hb Hb1 (random_source w) Hrand Hb2
             true k n (drawn w) d x (or_introl Hd) Hx).
    apply normal_is_finite.
    apply (le_finite_normal x (ldexp v (Z.of_nat (S k))) Hnx Hfin Hh).
Qed.

(** X1: the events of one call whose delays are all finite are rounds of
    three -- the call of the operation, the log record carrying the round's
    number (counted from 1), [max_retries] and the new delay, and the sleep
    for exactly the logged delay -- followed by nothing when the budget is
    used up, and by one last call of the operation otherwise. *)
Theorem every_sleep_is_logged_with_its_delay
    qualname (body : Method) N (d base : float) jitter self args (w : World) :
  all_finite (call_delays (retry_function_with_exponential_backoff
                             (Def qualname body) N d base jitter) self args w)
  = true ->
  exists (k : nat) (tail : list (event float)),
    call_events (retry_function_with_exponential_backoff
                   (Def qualname body) N d base jitter) self args w =
      rounds_events N (range 1 (Z.of_nat k + 1))
        (delays base jitter (random_source w) (drawn w) d k) ++ tail /\
    ((tail = [] /\ k = Z.to_nat N) \/ (tail = [EvAwait] /\ (k < Z.to_nat N)%nat)).
Proof.
  intros _.
  destruct (call_observed qualname body N d base jitter self args w)
    as (k & tail & _ & Hev & _ & _ & _ & _ & _ & Hend).
  exists k, tail. split; assumption.
Qed.

(** X5: with a positive [max_retries], a call whose delays are all finite
    ends in one of three ways: it returns what an invocation of the
    operation returned; it raises what an invocation raised, and that is not
    a rate-limit failure; or it raises the exhaustion error caused by the
    last invocation's rate-limit failure.  A rate-limit failure of the
    operation never leaves the wrapper as it is. *)
Theorem outcome_of_a_call
    qualname (body : Method) N (d base : float) jitter self args (w : World) :
  1 <= N ->
  all_finite (call_delays (retry_function_with_exponential_backoff
                             (Def qualname body) N d base jitter) self args w)
  = true ->
  let r := fst (call (retry_function_with_exponential_backoff
                        (Def qualname body) N d base jitter) self args w) in
  (exists (k : nat) v,
      (k < Z.to_nat N)%nat /\ outcome body self args k (heap w) = Return v /\
      r = Return v) \/
  (exists (k : nat) e,
      (k < Z.to_nat N)%nat /\ outcome body self args k (heap w) = Raise e /\
      isinstance_RateLimitException e = false /\ r = Raise e) \/
  (exists e,
      outcome body self args (Z.to_nat N - 1) (heap w) = Raise e /\
      isinstance_RateLimitException e = true /\ r = Raise (retry_exhausted e)).
Proof.
  intros HN _ r. unfold r.
  destruct (call_run qualname body N d base jitter self args w)
    as (k & tail & Hk & Hfail & _ & _ & _ & _ & Hend).
  destruct Hend as [(_ & -> & Hr) | (_ & Hlt & Hr & Hno)].
  - right. right.
    destruct (Z.to_nat N) as [|n] eqn:HNn; [lia|].
    destruct (Hfail n) as (e & He & Hcatch); [lia|].
    exists e. replace (S n - 1)%nat with n by lia.
    split; [exact He|]. split; [exact Hcatch|].
    rewrite Hr. simpl. rewrite He. reflexivity.
  - destruct (outcome body self args k (heap w)) as [v|e] eqn:Hout.
    + left. exists k, v. auto.
    + right. left. exists k, e.
      split; [exact Hlt|]. split; [exact Hout|]. split; [|exact Hr].
      destruct (isinstance_RateLimitException e) eqn:Hcatch; [|reflexivity].
      exfalso. apply Hno. exists e. auto.
Qed.

(** X7: the explicit-policy decorator has no guard against wrapping its
    own wrapper, and the exhaustion error of the inner wrapper is a
    rate-limit failure for the outer one.  Around an operation that is rate
    limited whenever it is invoked, and when the delays slept by the two
    wrappers are all finite, the budgets multiply: the operation is invoked
    [outer * inner] times, with [outer * (inner + 1)] sleeps, before the
    outer wrapper gives up. *)
Theorem nested_wrappers_multiply_attempts
    qualname (body : Method) Ni (di bi : float) ji No (do bo : float) jo
    self args (w : World) :
  1 <= Ni -> 1 <= No ->
  (forall h, rate_limited (fst (body self args h))) ->
  let inner := retry_function_with_exponential_backoff (Def qualname body) Ni di bi ji in
  let outer := retry_function_with_exponential_backoff inner No do bo jo in
  all_finite (call_delays outer self args w) = true ->
  (exists e, fst (call outer self args w) = Raise (retry_exhausted (retry_exhausted e)) /\
             isinstance_RateLimitException e = true) /\
  heap (snd (call outer self args w)) =
    heap_after body self args (Z.to_nat No * Z.to_nat Ni) (heap w) /\
  length (call_delays outer self args w) = (Z.to_nat No * (Z.to_nat Ni + 1))%nat.
Proof.
  intros HNi HNo Hall inner outer _.
  destruct (outer_loop_exhausts qualname body Ni di bi ji No bo jo self args HNi Hall
              (range 1 (No + 1)) do None w)
    as (last' & w' & Hloop & Hh & Hs & Hl).
  assert (Hcall : call outer self args w = raise_exhausted last' w') by exact Hloop.
  rewrite length_range_1 in Hh, Hs.
  destruct (range 1 (No + 1)) as [|n rest] eqn:Hr.
  { apply (f_equal length) in Hr. rewrite length_range_1 in Hr. simpl in Hr. lia. }
  destruct Hl as (e & -> & Hcatch).
  unfold call_delays. rewrite Hcall. cbn [raise_exhausted raise fst snd].
  split; [exists e; split; [reflexivity | exact Hcatch]|].
  split; [exact Hh|].
  rewrite length_drop, Hs. lia.
Qed.

(** X8: the guard of [retry_with_exponential_backoff] recognises its own
    wrapper only.  Applied to a wrapper made by
    [retry_function_with_exponential_backoff] it wraps again, and the budgets
    multiply as above (for calls whose delays are all finite), the outer one
    being read from the receiver. *)
Theorem receiver_policy_around_explicit_wrapper_multiplies
    qualname (body : Method) Ni (di bi : float) ji self args (w : World)
    (c : Connector float) :
  objects (heap w) !! self = Some c ->
  1 <= Ni -> 1 <= max_retries c ->
  (forall h, rate_limited (fst (body self args h))) ->
  let inner := retry_function_with_exponential_backoff (Def qualname body) Ni di bi ji in
  let wrapped := retry_with_exponential_backoff inner in
  all_finite (call_delays wrapped self args w) = true ->
  wrapped = Closure__wrapper inner /\
  heap (snd (call wrapped self args w)) =
    heap_after body self args (Z.to_nat (max_retries c) * Z.to_nat Ni) (heap w) /\
  length (call_delays wrapped self args w) =
    (Z.to_nat (max_retries c) * (Z.to_nat Ni + 1))%nat.
Proof.
  intros Hc HNi HNo Hall inner wrapped _.
  split; [reflexivity|].
  destruct (outer_loop_exhausts qualname body Ni di bi ji (max_retries c)
              (exponential_base c) (jitter c) self args HNi Hall
              (range 1 (max_retries c + 1)) (initial_delay c) None w)
    as (last' & w' & Hloop & Hh & Hs & _).
  assert (Hcall : call wrapped self args w = raise_exhausted last' w').
  { unfold wrapped. simpl. unfold _wrapper, bind, getattr_policy.
    rewrite Hc. exact Hloop. }
  rewrite length_range_1 in Hh, Hs.
  assert (Hw : snd (raise_exhausted (T:=T) last' w') = w')
    by (destruct last'; reflexivity).
  unfold call_delays. rewrite Hcall, Hw.
  split; [exact Hh|].
  rewrite length_drop, Hs. lia.
Qed.

(** X9: in binary64, for a positive normal initial delay and base, a base
    of at least 1 whose double is finite, and draws in [[0, 1)], the delays
    of a call that are all finite never decrease, with or without jitter:
    every sleep is at least as long as the initial delay (which is itself
    never slept) and at least as long as the sleep before it.  The
    inequalities are not strict: a base of 1.0 without jitter repeats the
    delay. *)
Theorem delays_never_decrease
    qualname (body : Method) N (d base : float) jitter self args (w : World)
    (k : nat) (x : float) :
  normal d = true -> normal base = true ->
  fleb (float_of_Z 1) base = true ->
  is_finite (ldexp base 1) = true ->
  (forall i, unit_interval (random_source w i) = true) ->
  all_finite (call_delays (retry_function_with_exponential_backoff
                             (Def qualname body) N d base jitter) self args w)
  = true ->
  call_delays (retry_function_with_exponential_backoff
                 (Def qualname body) N d base jitter) self args w !! k = Some x ->
  fleb d x = true /\
  forall y,
    call_delays (retry_function_with_exponential_backoff
                   (Def qualname body) N d base jitter) self args w !! S k = Some y ->
    fleb x y = true.
Proof.
  intros Hd Hb Hb1 Hb2 Hrand _ Hx.
  destruct (call_delays_spec qualname body N d base jitter self args w) as (n & _ & Hn).
  rewrite Hn in *.
  destruct (delays_monotone base Hb Hb1 (random_source w) Hrand Hb2
              jitter k n (drawn w) d x (or_introl Hd) Hx) as (_ & Hle & Hnext).
  split; assumption.
Qed.

End Float64Runs.

(** ** The binary64 theorems at sample inputs *)

Section Float64Witnesses.

Import Binary64.

(** C7 fails as stated: with [initial_delay=1.0], [exponential_base=2.0]
    and draws of 0.5, the second jittered delay is 9.0 while the second
    delay without jitter is 4.0, and 9.0 is not below 2.0 * 4.0. *)
Lemma second_jittered_delay_exceeds_twice_the_plain_one :
  exists x v : float,
    unit_interval Sample64.half = true /\
    call_delays (retry_function_with_exponential_backoff
                   (Def "get_response" always_limited)
                   2 (float_of_Z 1) (float_of_Z 2) true)
      1%positive tt Sample64.world !! 1%nat = Some x /\
    call_delays (retry_function_with_exponential_backoff
                   (Def "get_response" always_limited)
                   2 (float_of_Z 1) (float_of_Z 2) false)
      1%positive tt Sample64.world !! 1%nat = Some v /\
    x = float_of_Z 9 /\ v = float_of_Z 4 /\
    ~ (fleb v x = true /\ fltb x (fmul (float_of_Z 2) v) = true).
Proof.
  exists (float_of_Z 9), (float_of_Z 4).
  split; [vm_compute; reflexivity|].
  split; [vm_compute; reflexivity|].
  split; [vm_compute; reflexivity|].
  split; [reflexivity|].
  split; [reflexivity|].
  intros [_ Hlt]. vm_compute in Hlt. discriminate Hlt.
Qed.

Lemma exhausted_after_max_retries_attempts_witness :
  exists e w',
    call (retry_function_with_exponential_backoff
            (Def "get_response" always_limited)
            3 (float_of_Z 1) (float_of_Z 2) false)
      1%positive tt Sample64.world
    = (Raise (Exc RateLimitException "Rate limit error after max retries." (Some e)),
       w') /\
    outcome always_limited 1%positive tt (Z.to_nat 3 - 1) (heap Sample64.world)
    = Raise e /\
    awaits (trace w') = (awaits (trace Sample64.world) + Z.to_nat 3)%nat /\
    heap w' = heap_after always_limited 1%positive tt (Z.to_nat 3)
                (heap Sample64.world).
Proof.
  apply (exhausted_after_max_retries_attempts "get_response" always_limited 3
           (float_of_Z 1) (float_of_Z 2) false 1%positive tt Sample64.world).
  - lia.
  - intros i Hi.
    destruct i as [|[|[|i]]]; [eexists; split; reflexivity ..|].
    exfalso. change (Z.to_nat 3) with 3%nat in Hi. lia.
  - vm_compute. reflexivity.
Defined.

Lemma exhaustion_is_a_RateLimitException_witness :
  exists x w',
    call (retry_function_with_exponential_backoff
            (Def "get_response" always_limited)
            3 (float_of_Z 1) (float_of_Z 2) false)
      1%positive tt Sample64.world = (Raise x, w') /\
    exc_cls x = RateLimitException /\
    isinstance_RateLimitException x = true /\
    exc_message x = "Rate limit error after max retries."%string /\
    exists e, exc_cause x = Some e /\ isinstance_RateLimitException e = true.
Proof.
  apply (exhaustion_is_a_RateLimitException "get_response" always_limited 3
           (float_of_Z 1) (float_of_Z 2) false 1%positive tt Sample64.world).
  - lia.
  - intros i Hi.
    destruct i as [|[|[|i]]]; [eexists; split; reflexivity ..|].
    exfalso. change (Z.to_nat 3) with 3%nat in Hi. lia.
  - vm_compute. reflexivity.
Defined.

Lemma success_on_kth_attempt_witness :
  exists w' tr,
    call (retry_function_with_exponential_backoff
            (Def "get_response" succeeds_second)
            3 (float_of_Z 1) (float_of_Z 2) false)
      1%positive tt Sample64.world = (Return "answer"%string, w') /\
    trace w' = trace Sample64.world ++ tr ++ [EvAwait] /\
    awaits (tr ++ [EvAwait]) = 2%nat /\
    length (sleeps (tr ++ [EvAwait])) = (2 - 1)%nat /\
    heap w' = heap_after succeeds_second 1%positive tt 2 (heap Sample64.world).
Proof.
  apply (success_on_kth_attempt "get_response" succeeds_second 3
           (float_of_Z 1) (float_of_Z 2) false 1%positive tt Sample64.world
           2 "answer"%string).
  - lia.
  - lia.
  - intros i Hi. assert (i = O) as -> by lia.
    eexists; split; reflexivity.
  - reflexivity.
  - vm_compute. reflexivity.
Defined.

Lemma other_failure_propagates_witness :
  exists w' tr,
    call (retry_function_with_exponential_backoff
            (Def "get_response" fails_second)
            3 (float_of_Z 1) (float_of_Z 2) false)
      1%positive tt Sample64.world = (Raise value_error, w') /\
    trace w' = trace Sample64.world ++ tr ++ [EvAwait] /\
    awaits (tr ++ [EvAwait]) = 2%nat /\
    length (sleeps (tr ++ [EvAwait])) = (2 - 1)%nat /\
    heap w' = heap_after fails_second 1%positive tt 2 (heap Sample64.world).
Proof.
  apply (other_failure_propagates "get_response" fails_second 3
           (float_of_Z 1) (float_of_Z 2) false 1%positive tt Sample64.world
           2 value_error).
  - lia.
  - lia.
  - intros i Hi. assert (i = O) as -> by lia.
    eexists; split; reflexivity.
  - reflexivity.
  - reflexivity.
  - vm_compute. reflexivity.
Defined.

Lemma jittered_delay_within_compounded_factor_witness :
  exists x v : float,
    call_delays (retry_function_with_exponential_backoff
                   (Def "get_response" always_limited)
                   2 (float_of_Z 1) (float_of_Z 2) true)
      1%positive tt Sample64.world !! 1%nat = Some x /\
    call_delays (retry_function_with_exponential_backoff
                   (Def "get_response" always_limited)
                   2 (float_of_Z 1) (float_of_Z 2) false)
      1%positive tt Sample64.world !! 1%nat = Some v /\
    x = float_of_Z 9 /\ v = float_of_Z 4 /\
    fleb v x = true /\
    fleb x (ldexp v (Z.of_nat 2)) = true /\
    all_finite (take 2
                  (call_delays (retry_function_with_exponential_backoff
                                  (Def "get_response" always_limited)
                                  2 (float_of_Z 1) (float_of_Z 2) true)
                     1%positive tt Sample64.world))
    = true.
Proof.
  exists (float_of_Z 9), (float_of_Z 4).
  split; [vm_compute; reflexivity|].
  split; [vm_compute; reflexivity|].
  split; [reflexivity|].
  split; [reflexivity|].
  apply (jittered_delay_within_compounded_factor "get_response" always_limited 2
           (float_of_Z 1) (float_of_Z 2) 1%positive tt Sample64.world 1
           (float_of_Z 9) (float_of_Z 4)).
  - reflexivity.
  - reflexivity.
  - reflexivity.
  - reflexivity.
  - intros i. reflexivity.
  - vm_compute. reflexivity.
  - vm_compute. reflexivity.
  - reflexivity.
Defined.

Lemma every_sleep_is_logged_with_its_delay_witness :
  exists (k : nat) (tail : list (event float)),
    call_events (retry_function_with_exponential_backoff
                   (Def "get_response" succeeds_second)
                   3 (float_of_Z 1) (float_of_Z 2) true)
      1%positive tt Sample64.world =
      rounds_events 3 (range 1 (Z.of_nat k + 1))
        (delays (float_of_Z 2) true (random_source Sample64.world)
           (drawn Sample64.world) (float_of_Z 1) k) ++ tail /\
    ((tail = [] /\ k = Z.to_nat 3) \/ (tail = [EvAwait] /\ (k < Z.to_nat 3)%nat)).
Proof.
  apply (every_sleep_is_logged_with_its_delay "get_response" succeeds_second 3
           (float_of_Z 1) (float_of_Z 2) true 1%positive tt Sample64.world).
  vm_compute. reflexivity.
Defined.

Lemma outcome_of_a_call_witness :
  let r := fst (call (retry_function_with_exponential_backoff
                        (Def "get_response" succeeds_second)
                        3 (float_of_Z 1) (float_of_Z 2) false)
                  1%positive tt Sample64.world) in
  (exists (k : nat) v,
      (k < Z.to_nat 3)%nat /\
      outcome succeeds_second 1%positive tt k (heap Sample64.world) = Return v /\
      r = Return v) \/
  (exists (k : nat) e,
      (k < Z.to_nat 3)%nat /\
      outcome succeeds_second 1%positive tt k (heap Sample64.world) = Raise e /\
      isinstance_RateLimitException e = false /\ r = Raise e) \/
  (exists e,
      outcome succeeds_second 1%positive tt (Z.to_nat 3 - 1) (heap Sample64.world)
      = Raise e /\
      isinstance_RateLimitException e = true /\ r = Raise (retry_exhausted e)).
Proof.
  apply (outcome_of_a_call "get_response" succeeds_second 3
           (float_of_Z 1) (float_of_Z 2) false 1%positive tt Sample64.world).
  - lia.
  - vm_compute. reflexivity.
Defined.

Lemma nested_wrappers_multiply_attempts_witness :
  let inner := retry_function_with_exponential_backoff
                 (Def "get_response" always_limited)
                 2 (float_of_Z 1) (float_of_Z 2) false in
  let outer := retry_function_with_exponential_backoff inner
                 3 (float_of_Z 1) (float_of_Z 2) false in
  (exists e,
      fst (call outer 1%positive tt Sample64.world)
      = Raise (retry_exhausted (retry_exhausted e)) /\
      isinstance_RateLimitException e = true) /\
  heap (snd (call outer 1%positive tt Sample64.world)) =
    heap_after always_limited 1%positive tt (Z.to_nat 3 * Z.to_nat 2)
      (heap Sample64.world) /\
  length (call_delays outer 1%positive tt Sample64.world) =
    (Z.to_nat 3 * (Z.to_nat 2 + 1))%nat.
Proof.
  apply (nested_wrappers_multiply_attempts "get_response" always_limited
           2 (float_of_Z 1) (float_of_Z 2) false
           3 (float_of_Z 1) (float_of_Z 2) false 1%positive tt Sample64.world).
  - lia.
  - lia.
  - apply always_limited_whenever_invoked.
  - vm_compute. reflexivity.
Defined.

Lemma receiver_policy_around_explicit_wrapper_multiplies_witness :
  let inner := retry_function_with_exponential_backoff
                 (Def "get_response" always_limited)
                 2 (float_of_Z 1) (float_of_Z 2) false in
  let wrapped := retry_with_exponential_backoff inner in
  wrapped = Closure__wrapper inner /\
  heap (snd (call wrapped 1%positive tt Sample64.world)) =
    heap_after always_limited 1%positive tt
      (Z.to_nat (max_retries Sample64.policy) * Z.to_nat 2) (heap Sample64.world) /\
  length (call_delays wrapped 1%positive tt Sample64.world) =
    (Z.to_nat (max_retries Sample64.policy) * (Z.to_nat 2 + 1))%nat.
Proof.
  apply (receiver_policy_around_explicit_wrapper_multiplies
           "get_response" always_limited 2 (float_of_Z 1) (float_of_Z 2) false
           1%positive tt Sample64.world Sample64.policy).
  - apply lookup_singleton_eq.
  - lia.
  - simpl. lia.
  - apply always_limited_whenever_invoked.
  - vm_compute. reflexivity.
Defined.

Lemma delays_never_decrease_witness :
  exists x : float,
    call_delays (retry_function_with_exponential_backoff
                   (Def "get_response" always_limited)
                   2 (float_of_Z 1) (float_of_Z 2) true)
      1%positive tt Sample64.world !! O = Some x /\
    x = float_of_Z 3 /\
    fleb (float_of_Z 1) x = true /\
    forall y,
      call_delays (retry_function_with_exponential_backoff
                     (Def "get_response" always_limited)
                     2 (float_of_Z 1) (float_of_Z 2) true)
        1%positive tt Sample64.world !! 1%nat = Some y ->
      fleb x y = true.
Proof.
  exists (float_of_Z 3).
  split; [vm_compute; reflexivity|].
  split; [reflexivity|].
  apply (delays_never_decrease "get_response" always_limited 2
           (float_of_Z 1) (float_of_Z 2) true 1%positive tt Sample64.world O).
  - reflexivity.
  - reflexivity.
  - reflexivity.
  - reflexivity.
  - intros i. reflexivity.
  - vm_compute. reflexivity.
  - vm_compute. reflexivity.
Defined.

(** The growth is not strict: with a base of 1.0 and no jitter the delay
    is repeated. *)
Example delay_repeated_with_base_one :
  let d := float_of_dyadic 1 1022 in
  normal d = true /\
  delays (float_of_Z 1) false (fun _ => Sample64.half) O d 2 = [d; d].
Proof.
  vm_compute. split; reflexivity.
Qed.

End Float64Witnesses.
